(** * go-natty demo: session framing, address conversion and process start-up

    A shallow embedding of [demo/proxy.go] (the [message] type with its
    accessors, [idToBytes], [udpAddresses], [connectToWaddell], [main]) and of
    the traversal session exercised by [natty_test.go], together with the
    properties claimed about them. *)

From Stdlib Require Import ZArith Lia.
From stdpp Require Import base option list gmap strings.
From coqutil Require Import Byte.

Local Open Scope Z_scope.

(** ** The Go run time the program relies on *)

Module Go.

(** How a call ends: a normal return, a run-time panic, or [os.Exit]. *)
Inductive failure :=
| SliceBoundsOutOfRange
| IndexOutOfRange
| InvalidMemory
| Exit (code : Z).

Inductive outcome (A : Type) :=
| Returned (a : A)
| Failed (f : failure).
Arguments Returned {A} a.
Arguments Failed {A} f.

(** Code that reads and writes a state [St] and may fail. A failure leaves
    the state as it was at the point of failure. *)
Definition Exec (St A : Type) : Type := St -> outcome A * St.

Definition ret {St A} (a : A) : Exec St A := fun s => (Returned a, s).

Definition bind {St A B} (m : Exec St A) (k : A -> Exec St B) : Exec St B :=
  fun s => match m s with
           | (Returned a, s') => k a s'
           | (Failed f, s') => (Failed f, s')
           end.

Definition fail {St A} (f : failure) : Exec St A := fun s => (Failed f, s).
Definition get {St} : Exec St St := fun s => (Returned s, s).
Definition modify {St} (f : St -> St) : Exec St unit := fun s => (Returned tt, f s).

(** [uint32] values are integers in [0, 2^32); arithmetic wraps. *)
Definition uint32 (z : Z) : Z := z mod 2 ^ 32.
Definition is_uint32 (z : Z) : Prop := 0 <= z < 2 ^ 32.
Definition shl32 (x : Z) (n : Z) : Z := uint32 (Z.shiftl x n).
Definition shr32 (x : Z) (n : Z) : Z := Z.shiftr x n.
Definition or32 (x y : Z) : Z := Z.lor x y.

(** The conversions [byte(v)] and [uint32(b)]. *)
Definition byte_of_uint32 (v : Z) : byte := byte.of_Z v.
Definition uint32_of_byte (b : byte) : Z := byte.unsigned b.

(** A slice is a window on a backing array: which array, where the window
    starts, how many elements are visible ([len]) and how many the array
    holds from the start of the window ([cap]). *)
Record slice := Slice { arr : nat; off : nat; len : nat; cap : nat }.

(** The heap holds the backing arrays. *)
Abbreviation heap := (gmap nat (list byte)).

(** [s[lo:hi]]: the bounds are checked against the capacity. *)
Definition reslice (s : slice) (lo hi : nat) : Exec heap slice :=
  if decide (lo ≤ hi ∧ hi ≤ cap s)%nat
  then ret (Slice (arr s) (off s + lo) (hi - lo) (cap s - lo))
  else fail SliceBoundsOutOfRange.

(** [s[lo:]] is [s[lo:len(s)]]. *)
Definition reslice_from (s : slice) (lo : nat) : Exec heap slice :=
  reslice s lo (len s).

(** [s[:hi]] is [s[0:hi]]. *)
Definition reslice_to (s : slice) (hi : nat) : Exec heap slice :=
  reslice s 0 hi.

(** [s[i]] as an expression. *)
Definition index (s : slice) (i : nat) : Exec heap byte :=
  fun h =>
    if decide (i < len s)%nat
    then match h !! arr s ≫= (fun a => a !! (off s + i)%nat) with
         | Some b => (Returned b, h)
         | None => (Failed InvalidMemory, h)
         end
    else (Failed IndexOutOfRange, h).

(** [s[i] = v]. *)
Definition store (s : slice) (i : nat) (v : byte) : Exec heap unit :=
  fun h =>
    if decide (i < len s)%nat
    then match h !! arr s with
         | Some a =>
             if decide (off s + i < length a)%nat
             then (Returned tt, <[arr s := <[(off s + i)%nat := v]> a]> h)
             else (Failed InvalidMemory, h)
         | None => (Failed InvalidMemory, h)
         end
    else (Failed IndexOutOfRange, h).

(** [make([]byte, n)]: a fresh, zeroed array of [n] bytes. *)
Definition make (n : nat) : Exec heap slice :=
  fun h =>
    let l := fresh (dom h) in
    (Returned (Slice l 0 n n), <[l := replicate n (byte.of_Z 0)]> h).

(** The bytes a slice shows. *)
Definition contents (h : heap) (s : slice) : list byte :=
  take (len s) (drop (off s) (default [] (h !! arr s))).

(** A slice is valid in a heap when its window lies inside its array. *)
Definition valid (h : heap) (s : slice) : Prop :=
  (len s ≤ cap s)%nat ∧
  ∃ a, h !! arr s = Some a ∧ (off s + cap s ≤ length a)%nat.

End Go.

Import Go.

Declare Scope exec_scope.
Delimit Scope exec_scope with exec.
Notation "x <- m ;; k" := (bind m (fun x => k))
  (at level 100, m at next level, right associativity) : exec_scope.
Notation "m ;;; k" := (bind m (fun _ => k))
  (at level 100, right associativity) : exec_scope.
Local Open Scope exec_scope.

(** ** [encoding/binary]'s little-endian byte order

    The two functions of Go's standard library that the message accessors
    call, with the bounds check each starts with. *)

Module LittleEndian.

(** [func (littleEndian) Uint32(b []byte) uint32] *)
Definition Uint32 (b : slice) : Exec heap Z :=
  index b 3 ;;;
  b0 <- index b 0 ;;
  b1 <- index b 1 ;;
  b2 <- index b 2 ;;
  b3 <- index b 3 ;;
  ret (or32 (or32 (or32 (uint32_of_byte b0)
                        (shl32 (uint32_of_byte b1) 8))
                  (shl32 (uint32_of_byte b2) 16))
            (shl32 (uint32_of_byte b3) 24)).

(** [func (littleEndian) PutUint32(b []byte, v uint32)] *)
Definition PutUint32 (b : slice) (v : Z) : Exec heap unit :=
  index b 3 ;;;
  store b 0 (byte_of_uint32 v) ;;;
  store b 1 (byte_of_uint32 (shr32 v 8)) ;;;
  store b 2 (byte_of_uint32 (shr32 v 16)) ;;;
  store b 3 (byte_of_uint32 (shr32 v 24)).

End LittleEndian.

(** ** demo/proxy.go: the framed message *)

(** [var endianness = binary.LittleEndian] *)
Module endianness := LittleEndian.

(** [type message []byte] *)
Definition message : Type := slice.

(** [func (msg message) setSessionID(id uint32)] *)
Definition setSessionID (msg : message) (id : Z) : Exec heap unit :=
  hdr <- reslice_to msg 4 ;;
  endianness.PutUint32 hdr id.

(** [func (msg message) getSessionID() uint32] *)
Definition getSessionID (msg : message) : Exec heap Z :=
  hdr <- reslice_to msg 4 ;;
  endianness.Uint32 hdr.

(** [func (msg message) getData() []byte] *)
Definition getData (msg : message) : Exec heap slice :=
  reslice_from msg 4.

(** [func idToBytes(id uint32) []byte] *)
Definition idToBytes (id : Z) : Exec heap slice :=
  b <- make 4 ;;
  hdr <- reslice_to b 4 ;;
  endianness.PutUint32 hdr id ;;;
  ret b.

(** The four bytes [PutUint32] writes for [v], and the value [Uint32] reads
    from four bytes. *)
Definition le_bytes (v : Z) : list byte :=
  [byte_of_uint32 v; byte_of_uint32 (shr32 v 8);
   byte_of_uint32 (shr32 v 16); byte_of_uint32 (shr32 v 24)].

Definition le_value (b0 b1 b2 b3 : byte) : Z :=
  or32 (or32 (or32 (uint32_of_byte b0)
                   (shl32 (uint32_of_byte b1) 8))
             (shl32 (uint32_of_byte b2) 16))
       (shl32 (uint32_of_byte b3) 24).

(** The array [a] after [PutUint32] wrote [v] at offset [o]. *)
Definition written (o : nat) (v : Z) (a : list byte) : list byte :=
  <[(o + 3)%nat := byte_of_uint32 (shr32 v 24)]>
    (<[(o + 2)%nat := byte_of_uint32 (shr32 v 16)]>
       (<[(o + 1)%nat := byte_of_uint32 (shr32 v 8)]>
          (<[(o + 0)%nat := byte_of_uint32 v]> a))).

Definition bytes_of (l : list Z) : list byte := map byte.of_Z l.

(** ** Package natty, as far as the demo and the tests use it *)

Module natty.

(** [type Protocol string] *)
Definition Protocol : Type := string.

(** [type FiveTuple struct { Local, Remote string; Proto Protocol }], read
    by [udpAddresses] and compared field by field in [doTest]. *)
Record FiveTuple := { Local : string; Remote : string; Proto : Protocol }.

End natty.

(** ** demo/proxy.go: [udpAddresses] *)

Section udpAddresses.

(** What the function takes from outside this file: the constant
    [natty.UDP], the type [net.UDPAddr] and the resolver
    [net.ResolveUDPAddr], which returns an address and an error. *)
Variable UDP : natty.Protocol.
Variable UDPAddr : Type.
Variable ResolveUDPAddr : string -> string -> option UDPAddr * option string.

(** [fmt.Errorf] with one [%s] verb filled, and with a second [%s] verb
    for which no argument is passed. *)
Definition Errorf1 (before arg : string) : string := before +:+ arg.
Definition Errorf1_missing (before arg between : string) : string :=
  before +:+ arg +:+ between +:+ "%!s(MISSING)".

(** [func udpAddresses(ft)], returning the local address, the remote
    address and an error. *)
Definition udpAddresses (ft : natty.FiveTuple)
  : option UDPAddr * option UDPAddr * option string :=
  if negb (String.eqb (natty.Proto ft) UDP) then
    (None, None, Some (Errorf1 "FiveTuple.Proto was not UDP!: " (natty.Proto ft)))
  else
    let '(local, err) := ResolveUDPAddr "udp" (natty.Local ft) in
    if err is Some _ then
      (None, None,
       Some (Errorf1_missing "Unable to resolve local UDP address "
                             (natty.Local ft) ": "))
    else
      let '(remote, err) := ResolveUDPAddr "udp" (natty.Remote ft) in
      if err is Some _ then
        (None, None,
         Some (Errorf1_missing "Unable to resolve remote UDP address "
                               (natty.Remote ft) ": "))
      else (local, remote, None).

End udpAddresses.

Arguments udpAddresses UDP {UDPAddr} ResolveUDPAddr ft.

(** ** demo/proxy.go: flags, [connectToWaddell] and [main] *)

(** The four flag variables. *)
Record Flags := {
  help : bool;
  mode : string;
  waddellAddr : string;
  debug : bool
}.

(** Their declared defaults. *)
Definition default_flags : Flags :=
  {| help := false;
     mode := "client";
     waddellAddr := "128.199.130.61:443";
     debug := false |}.

(** A flag given on the command line. *)
Inductive Setting :=
| SetHelp (b : bool)
| SetMode (s : string)
| SetWaddell (s : string)
| SetDebug (b : bool).

Definition assign (f : Flags) (a : Setting) : Flags :=
  match a with
  | SetHelp b => {| help := b; mode := mode f; waddellAddr := waddellAddr f; debug := debug f |}
  | SetMode s => {| help := help f; mode := s; waddellAddr := waddellAddr f; debug := debug f |}
  | SetWaddell s => {| help := help f; mode := mode f; waddellAddr := s; debug := debug f |}
  | SetDebug b => {| help := help f; mode := mode f; waddellAddr := waddellAddr f; debug := b |}
  end.

(** What the process does that can be seen from outside. *)
Inductive Event :=
| PrintedUsage
| Dialed (network addr : string)
| Logged (line : string)
| RanServer
| RanClient.

Inductive Writer := Stderr.

(** The flags as [flag.Parse] leaves them when the process starts. *)
Definition parsed (args : list Setting) : Flags := foldl assign default_flags args.

Section demo.

(** Connections and relay clients, [net.Dial] and [waddell.Connect]; each
    of the two returns a value and an error. *)
Variable Conn : Type.
Variable Client : Type.
Variable Dial : string -> string -> option Conn * option string.
Variable Connect : option Conn -> option Client * option string.

(** The package-level variables, and the trace of what was done. *)
Record World := {
  flags : Flags;
  wc : option Client;
  debugOut : option Writer;
  trace : list Event
}.

Definition initial : World :=
  {| flags := default_flags; wc := None; debugOut := None; trace := [] |}.

Definition emit (e : Event) : Exec World unit :=
  modify (fun w => {| flags := flags w; wc := wc w; debugOut := debugOut w;
                      trace := trace w ++ [e] |}).

Definition set_wc (c : option Client) : Exec World unit :=
  modify (fun w => {| flags := flags w; wc := c; debugOut := debugOut w;
                      trace := trace w |}).

Definition set_debugOut (o : option Writer) : Exec World unit :=
  modify (fun w => {| flags := flags w; wc := wc w; debugOut := o;
                      trace := trace w |}).

(** [flag.Parse()] for a command line of recognised flags: each flag given
    is assigned, in order; the others keep their defaults. *)
Definition flag_Parse (args : list Setting) : Exec World unit :=
  modify (fun w => {| flags := foldl assign (flags w) args; wc := wc w;
                      debugOut := debugOut w; trace := trace w |}).

Definition flag_Usage : Exec World unit := emit PrintedUsage.

(** [log.Fatalf]: the line is logged and the process exits with status 1. *)
Definition log_Fatalf {A} (line : string) : Exec World A :=
  emit (Logged line) ;;; fail (Exit 1).

(** Modelled from the spec: the bodies of [runServer] and [runClient] are
    not part of the available source of [demo/proxy.go]. The spec's
    orchestrator runs one Session in the appropriate role; each of the
    two calls is recorded as the event of entering that role. *)
Definition runServer : Exec World unit := emit RanServer.
Definition runClient : Exec World unit := emit RanClient.

(** [func connectToWaddell()] *)
Definition connectToWaddell : Exec World unit :=
  w <- get ;;
  emit (Dialed "tcp" (waddellAddr (flags w))) ;;;
  let '(conn, err) := Dial "tcp" (waddellAddr (flags w)) in
  (if err is Some e
   then log_Fatalf (Errorf1 "Unable to dial waddell: " e)
   else ret tt) ;;;
  let '(c, err) := Connect conn in
  set_wc c ;;;
  (if err is Some e
   then log_Fatalf (Errorf1 "Unable to connect to waddell: " e)
   else ret tt).

(** [func main()] *)
Definition main (args : list Setting) : Exec World unit :=
  flag_Parse args ;;;
  w <- get ;;
  if help (flags w) then flag_Usage
  else
    (if debug (flags w) then set_debugOut (Some Stderr) else ret tt) ;;;
    connectToWaddell ;;;
    w <- get ;;
    if String.eqb "server" (mode (flags w)) then runServer else runClient.

(** Both the dial and the relay handshake went through. *)
Definition relay_connected (f : Flags) (c : option Client) : Prop :=
  ∃ conn, Dial "tcp" (waddellAddr f) = (conn, None) ∧ Connect conn = (c, None).

(** One of the two failed. *)
Definition relay_failed (f : Flags) : Prop :=
  (∃ conn e, Dial "tcp" (waddellAddr f) = (conn, Some e)) ∨
  (∃ conn c e, Dial "tcp" (waddellAddr f) = (conn, None) ∧
               Connect conn = (c, Some e)).

(** The three ways a run of [main] from the initial state can go: usage
    printed, fatal exit in [connectToWaddell], or a role entered. *)
Inductive main_run (args : list Setting) : outcome unit -> World -> Prop :=
| run_usage :
    help (parsed args) = true ->
    main_run args (Returned tt)
      {| flags := parsed args; wc := None; debugOut := None;
         trace := [PrintedUsage] |}
| run_fatal c line :
    help (parsed args) = false ->
    relay_failed (parsed args) ->
    main_run args (Failed (Exit 1))
      {| flags := parsed args; wc := c;
         debugOut := if debug (parsed args) then Some Stderr else None;
         trace := [Dialed "tcp" (waddellAddr (parsed args)); Logged line] |}
| run_role c :
    help (parsed args) = false ->
    relay_connected (parsed args) c ->
    main_run args (Returned tt)
      {| flags := parsed args; wc := c;
         debugOut := if debug (parsed args) then Some Stderr else None;
         trace := [Dialed "tcp" (waddellAddr (parsed args));
                   if String.eqb "server" (mode (parsed args))
                   then RanServer else RanClient] |}.

End demo.

Arguments flags {Client} w.
Arguments wc {Client} w.
Arguments debugOut {Client} w.
Arguments trace {Client} w.
Arguments Build_World {Client} flags wc debugOut trace.
Arguments initial {Client}.
Arguments connectToWaddell {Conn Client} Dial Connect.
Arguments main {Conn Client} Dial Connect args.
Arguments relay_connected {Conn Client} Dial Connect f c.
Arguments relay_failed {Conn Client} Dial Connect f.
Arguments main_run {Conn Client} Dial Connect args _ _.

(** ** The traversal session driven by natty_test.go *)

Module Session.

Import natty.

Inductive Role := Initiator | Responder.

Inductive Error := TimeoutError | NegotiationFailed | SessionClosed.

(** Modelled from the spec: the session type ([Traversal], with [Offer],
    [Answer], [NextMsgOut], [MsgIn], [FiveTuple], [FiveTupleTimeout] and
    [Close]) is called by the tests but its code is not among the sources.
    The record has the spec's fields; the negotiation engine it owns is
    opaque, and shows only through the events below. [failed] records
    that the engine reported an unrecoverable negotiation error. *)
Record t := {
  role : Role;
  active : bool;
  outboundExhausted : bool;
  resolved : option FiveTuple;
  failed : bool;
  closed : bool
}.

(** Modelled from the spec: a session is created in one role, with
    nothing sent, resolved or closed. *)
Definition create (r : Role) : t :=
  {| role := r; active := false; outboundExhausted := false;
     resolved := None; failed := false; closed := false |}.

(** Modelled from the spec: the states of section 4.1, read off the
    fields. A bounded resolve that expires leaves the session [Active]
    (section 4.1, operations), so no field records a timeout. *)
Inductive State := Created | Active | Resolved | Failed | Closed.

Definition state (s : t) : State :=
  if closed s then Closed
  else if resolved s is Some _ then Resolved
  else if failed s then Failed
  else if active s then Active
  else Created.

(** Modelled from the spec: what happens to a session while a caller is
    blocked on it: the outbound pump takes the next message or learns
    there is none left, the inbound pump feeds a message, the engine
    surfaces a five-tuple or gives up, or the orchestrator closes it. *)
Inductive event :=
| Produced (done : bool)
| Consumed (payload : string)
| EngineResolved (ft : FiveTuple)
| EngineFailed
| Close.

(** Modelled from the spec: the effect of one event. Once closed, every
    operation is a no-op; [resolved] is written only while it is empty;
    a failure is recorded only while nothing is resolved. *)
Definition step (s : t) (e : event) : t :=
  if closed s then s
  else match e with
       | Produced done =>
           {| role := role s; active := true;
              outboundExhausted := outboundExhausted s || done;
              resolved := resolved s; failed := failed s; closed := false |}
       | Consumed _ =>
           {| role := role s; active := true;
              outboundExhausted := outboundExhausted s;
              resolved := resolved s; failed := failed s; closed := false |}
       | EngineResolved ft =>
           if resolved s is Some _ then s
           else if failed s then s
           else {| role := role s; active := true;
                   outboundExhausted := outboundExhausted s;
                   resolved := Some ft; failed := false; closed := false |}
       | EngineFailed =>
           if resolved s is Some _ then s
           else {| role := role s; active := true;
                   outboundExhausted := outboundExhausted s;
                   resolved := None; failed := true; closed := false |}
       | Close =>
           {| role := role s; active := active s;
              outboundExhausted := outboundExhausted s;
              resolved := resolved s; failed := failed s; closed := true |}
       end.

Definition steps (s : t) (es : list event) : t := foldl step s es.

(** What a blocking call gives its caller; [Blocked] is a call that never
    returns. *)
Inductive answer :=
| Ok (ft : FiveTuple)
| Err (e : Error)
| Blocked.

(** The events still to come, each with the time at which it happens. *)
Definition schedule : Type := list (N * event).

(** Modelled from the spec: waiting for the resolution, with or without
    a deadline. The caller is answered at once if the session is closed,
    resolved or failed; otherwise it sleeps until the next event, unless
    the deadline comes first, and looks again. The call returns its
    answer, the session as it is then, and the events not yet seen. *)
Fixpoint await (deadline : option N) (s : t) (sched : schedule)
  : answer * t * schedule :=
  if closed s then (Err SessionClosed, s, sched)
  else if resolved s is Some ft then (Ok ft, s, sched)
  else if failed s then (Err NegotiationFailed, s, sched)
  else match sched with
       | [] => (if deadline is Some _ then Err TimeoutError else Blocked, s, [])
       | (time, e) :: rest =>
           if deadline is Some d then
             if decide (d <= time)%N then (Err TimeoutError, s, sched)
             else await deadline (step s e) rest
           else await deadline (step s e) rest
       end.

(** Modelled from the spec: [resolve()], the tests' [FiveTuple()]. *)
Definition resolve (s : t) (sched : schedule) : answer * t * schedule :=
  await None s sched.

(** Modelled from the spec: [resolveWithTimeout(duration)], the tests'
    [FiveTupleTimeout(d)], called at time [now]. *)
Definition resolveWithTimeout (now duration : N) (s : t) (sched : schedule)
  : answer * t * schedule :=
  await (Some (now + duration)%N) s sched.

(** Nothing is due before [deadline]. *)
Definition quiet_until (deadline : N) (sched : schedule) : Prop :=
  match sched with
  | [] => True
  | (time, _) :: _ => (deadline <= time)%N
  end.

(** Only the two message pumps act. *)
Definition pump_event (te : N * event) : Prop :=
  match snd te with
  | Produced _ | Consumed _ => True
  | _ => False
  end.

End Session.

(** ** natty_test.go: the comparison of two five-tuples in [doTest] *)


(** ** Sample inputs *)

(** A buffer of six bytes holding a two-byte payload, and a three-byte
    message cut from an eight-byte receive buffer. *)
Definition frame_heap : heap := {[ 0%nat := bytes_of [0; 0; 0; 0; 72; 105] ]}.
Definition frame_msg : message := Slice 0 0 6 6.

Definition short_heap : heap := {[ 0%nat := bytes_of [1; 2; 3; 0; 0; 0; 0; 0] ]}.
Definition short_msg : message := Slice 0 0 3 8.
Definition tight_heap : heap := {[ 0%nat := bytes_of [1; 2; 3] ]}.
Definition tight_msg : message := Slice 0 0 3 3.

(** A ten-byte message: an outer header, an inner header and two bytes. *)
Definition nested_heap : heap :=
  {[ 0%nat := bytes_of [5; 0; 0; 0; 0; 0; 0; 0; 72; 105] ]}.
Definition nested_msg : message := Slice 0 0 10 10.

(** A resolver that knows two addresses, and two five-tuples. *)
Definition sample_resolver (network addr : string) : option (string * Z) * option string :=
  if String.eqb addr "10.0.0.1:5000" then (Some ("10.0.0.1", 5000), None)
  else if String.eqb addr "10.0.0.2:6000" then (Some ("10.0.0.2", 6000), None)
  else (None, Some ("missing port in address " +:+ addr)).

Definition udp_tuple : natty.FiveTuple :=
  {| natty.Local := "10.0.0.1:5000"; natty.Remote := "10.0.0.2:6000";
     natty.Proto := "udp" |}.

Definition tcp_tuple : natty.FiveTuple :=
  {| natty.Local := "10.0.0.1:5000"; natty.Remote := "10.0.0.2:6000";
     natty.Proto := "tcp" |}.

(** A resolver that returns an address together with an error. *)
Definition odd_resolver (network addr : string) : option (string * Z) * option string :=
  (Some (addr, 0), Some "lookup failed").

(** A relay that accepts every connection, and one that cannot be dialed. *)
Definition relay_up_dial (network addr : string) : option unit * option string :=
  (Some tt, None).
Definition relay_down_dial (network addr : string) : option unit * option string :=
  (None, Some "connection refused").
Definition relay_handshake (conn : option unit) : option unit * option string :=
  (Some tt, None).

(** A relay that answers the dial but refuses the handshake, keeping a
    half-made client. *)
Definition relay_refusing_handshake (conn : option unit) : option unit * option string :=
  (Some tt, Some "bad peer id").

(** A negotiation in which the first message leaves after two milliseconds
    and the engine resolves after nine; times are in microseconds. *)
Definition sample_tuple : natty.FiveTuple :=
  {| natty.Local := "192.168.1.2:50000"; natty.Remote := "203.0.113.7:40000";
     natty.Proto := "udp" |}.

Definition sample_pumping : Session.schedule :=
  [(2000%N, Session.Produced false); (3500%N, Session.Consumed "answer");
   (4000%N, Session.Produced true)].

Definition sample_rest : Session.schedule :=
  [(9500%N, Session.Produced true); (12000%N, Session.Close)].

Definition sample_schedule : Session.schedule :=
  sample_pumping ++ (9000%N, Session.EngineResolved sample_tuple) :: sample_rest.

(** * Properties *)

(** ** Running code in the [Exec] monad *)

Section exec_lemmas.
Context {St A B : Type}.

Lemma bind_returned (m : Exec St A) (k : A -> Exec St B) s a s' :
  m s = (Returned a, s') -> bind m k s = k a s'.
Proof. intros E. unfold bind. now rewrite E. Qed.

Lemma bind_failed (m : Exec St A) (k : A -> Exec St B) s f s' :
  m s = (Failed f, s') -> bind m k s = (Failed f, s').
Proof. intros E. unfold bind. now rewrite E. Qed.
End exec_lemmas.

(** ** Little-endian arithmetic *)

Lemma lor_disjoint_add a b k :
  0 <= k -> 0 <= a < 2 ^ k -> Z.lor a (b * 2 ^ k) = a + b * 2 ^ k.
Proof.
  intros Hk Ha.
  rewrite <- Z.lxor_lor, <- Z.add_nocarry_lxor; trivial.
  all: apply Z.bits_inj'; intros n Hn; rewrite Z.land_spec, Z.bits_0.
  all: rewrite <- Z.shiftl_mul_pow2 by lia.
  all: destruct (Z.lt_ge_cases n k) as [Hlt|Hge].
  all: try (rewrite Z.shiftl_spec_low by lia; apply andb_false_r).
  all: rewrite <- (Z.mod_small a (2 ^ k)) by lia.
  all: rewrite Z.mod_pow2_bits_high by lia; reflexivity.
Qed.

Lemma le_value_sum b0 b1 b2 b3 :
  le_value b0 b1 b2 b3 =
  byte.unsigned b0 + 2 ^ 8 * byte.unsigned b1 + 2 ^ 16 * byte.unsigned b2
  + 2 ^ 24 * byte.unsigned b3.
Proof.
  pose proof (byte.unsigned_range b0). pose proof (byte.unsigned_range b1).
  pose proof (byte.unsigned_range b2). pose proof (byte.unsigned_range b3).
  unfold le_value, or32, shl32, uint32, uint32_of_byte.
  rewrite !Z.shiftl_mul_pow2 by lia.
  rewrite !Z.mod_small by lia.
  rewrite (lor_disjoint_add (byte.unsigned b0)) by lia.
  rewrite (lor_disjoint_add (_ + _) _ 16) by lia.
  rewrite (lor_disjoint_add (_ + _) _ 24) by lia. lia.
Qed.

Lemma le_value_bytes v :
  le_value (byte_of_uint32 v) (byte_of_uint32 (shr32 v 8))
           (byte_of_uint32 (shr32 v 16)) (byte_of_uint32 (shr32 v 24))
  = uint32 v.
Proof.
  rewrite le_value_sum. unfold byte_of_uint32, shr32, uint32.
  rewrite !byte.unsigned_of_Z. unfold byte.wrap.
  rewrite !Z.shiftr_div_pow2 by lia.
  change (2 ^ 8) with 256. change (2 ^ 16) with 65536.
  change (2 ^ 24) with 16777216. change (2 ^ 32) with 4294967296.
  Z.div_mod_to_equations. lia.
Qed.

Lemma uint32_small v : is_uint32 v -> uint32 v = v.
Proof. intros H. apply Z.mod_small, H. Qed.

(** ** Slices and the heap *)

Lemma length_written o v a : length (written o v a) = length a.
Proof. unfold written. now rewrite !length_insert. Qed.

Lemma drop_written o v a :
  (o + 4 <= length a)%nat ->
  drop o (written o v a) = le_bytes v ++ drop (o + 4) a.
Proof.
  intros Hlen. unfold written. rewrite !drop_insert_ge by lia.
  replace (o + 3 - o)%nat with 3%nat by lia.
  replace (o + 2 - o)%nat with 2%nat by lia.
  replace (o + 1 - o)%nat with 1%nat by lia.
  replace (o + 0 - o)%nat with 0%nat by lia.
  rewrite <- (drop_drop a 4 o).
  assert (4 <= length (drop o a))%nat as Hl by (rewrite length_drop; lia).
  destruct (drop o a) as [|y0 [|y1 [|y2 [|y3 rest]]]]; simpl in Hl; try lia.
  reflexivity.
Qed.

Lemma index_ok h s i a x :
  h !! arr s = Some a -> (i < len s)%nat -> drop (off s) a !! i = Some x ->
  index s i h = (Returned x, h).
Proof.
  intros Ha Hi Hx. unfold index. rewrite decide_True by assumption.
  rewrite Ha. simpl. rewrite lookup_drop in Hx. now rewrite Hx.
Qed.

Lemma store_ok h s i a v :
  h !! arr s = Some a -> (i < len s)%nat -> (off s + i < length a)%nat ->
  store s i v h = (Returned tt, <[arr s := <[(off s + i)%nat := v]> a]> h).
Proof.
  intros Ha Hi Hl. unfold store.
  rewrite decide_True by assumption. rewrite Ha.
  now rewrite decide_True by assumption.
Qed.

Lemma PutUint32_ok h b a v :
  h !! arr b = Some a -> (4 <= len b)%nat -> (off b + 4 <= length a)%nat ->
  endianness.PutUint32 b v h = (Returned tt, <[arr b := written (off b) v a]> h).
Proof.
  intros Ha Hlen Hin. unfold endianness.PutUint32.
  assert (is_Some (drop (off b) a !! 3%nat)) as [x Hx].
  { apply lookup_lt_is_Some. rewrite length_drop. lia. }
  rewrite (bind_returned _ _ h x h) by (eapply index_ok; eauto; lia).
  erewrite bind_returned by (eapply store_ok; eauto; lia).
  erewrite bind_returned.
  2:{ eapply store_ok; [apply lookup_insert_eq| lia |rewrite length_insert; lia]. }
  rewrite insert_insert_eq.
  erewrite bind_returned.
  2:{ eapply store_ok; [apply lookup_insert_eq| lia |rewrite !length_insert; lia]. }
  rewrite insert_insert_eq.
  erewrite store_ok; [|apply lookup_insert_eq| lia |rewrite !length_insert; lia].
  rewrite insert_insert_eq. reflexivity.
Qed.

Lemma Uint32_ok h b a y0 y1 y2 y3 rest :
  h !! arr b = Some a -> (4 <= len b)%nat ->
  drop (off b) a = y0 :: y1 :: y2 :: y3 :: rest ->
  endianness.Uint32 b h = (Returned (le_value y0 y1 y2 y3), h).
Proof.
  intros Ha Hlen Hd. unfold endianness.Uint32.
  rewrite (bind_returned _ _ h y3 h) by (eapply index_ok; [exact Ha | lia | now rewrite Hd]).
  rewrite (bind_returned _ _ h y0 h) by (eapply index_ok; [exact Ha | lia | now rewrite Hd]).
  rewrite (bind_returned _ _ h y1 h) by (eapply index_ok; [exact Ha | lia | now rewrite Hd]).
  rewrite (bind_returned _ _ h y2 h) by (eapply index_ok; [exact Ha | lia | now rewrite Hd]).
  rewrite (bind_returned _ _ h y3 h) by (eapply index_ok; [exact Ha | lia | now rewrite Hd]).
  reflexivity.
Qed.

Lemma lookup_written_outside o v a j :
  (j < o ∨ o + 4 <= j)%nat -> written o v a !! j = a !! j.
Proof.
  intros Hj. unfold written.
  rewrite !list_lookup_insert_ne by lia. reflexivity.
Qed.

Lemma reslice_to_ok (h : heap) s n :
  (n <= cap s)%nat ->
  reslice_to s n h = (Returned (Slice (arr s) (off s) n (cap s)), h).
Proof.
  intros Hn. unfold reslice_to, reslice.
  rewrite decide_True by lia. unfold ret.
  now rewrite Nat.add_0_r, !Nat.sub_0_r.
Qed.

Lemma reslice_to_short (h : heap) s n :
  (cap s < n)%nat -> reslice_to s n h = (Failed SliceBoundsOutOfRange, h).
Proof.
  intros Hn. unfold reslice_to, reslice. now rewrite decide_False by lia.
Qed.

(** ** The message accessors on well-formed and on short messages *)

Lemma setSessionID_ok h msg a id :
  h !! arr msg = Some a -> (4 <= cap msg)%nat -> (off msg + 4 <= length a)%nat ->
  setSessionID msg id h
  = (Returned tt, <[arr msg := written (off msg) id a]> h).
Proof.
  intros Ha Hcap Hin. unfold setSessionID.
  erewrite bind_returned by (apply reslice_to_ok; lia).
  apply (PutUint32_ok h (Slice (arr msg) (off msg) 4 (cap msg)) a id);
    simpl; auto.
Qed.

Lemma getSessionID_ok h msg a y0 y1 y2 y3 rest :
  h !! arr msg = Some a -> (4 <= cap msg)%nat ->
  drop (off msg) a = y0 :: y1 :: y2 :: y3 :: rest ->
  getSessionID msg h = (Returned (le_value y0 y1 y2 y3), h).
Proof.
  intros Ha Hcap Hd. unfold getSessionID.
  erewrite bind_returned by (apply reslice_to_ok; lia).
  apply (Uint32_ok h (Slice (arr msg) (off msg) 4 (cap msg)) a _ _ _ _ rest);
    simpl; auto.
Qed.

Lemma getData_ok (h : heap) msg :
  (4 <= len msg <= cap msg)%nat ->
  getData msg h
  = (Returned (Slice (arr msg) (off msg + 4) (len msg - 4) (cap msg - 4)), h).
Proof.
  intros H. unfold getData, reslice_from, reslice.
  now rewrite decide_True by lia.
Qed.

Lemma getData_short (h : heap) msg :
  (len msg < 4)%nat -> getData msg h = (Failed SliceBoundsOutOfRange, h).
Proof.
  intros H. unfold getData, reslice_from, reslice.
  now rewrite decide_False by lia.
Qed.

Lemma getSessionID_short (h : heap) msg :
  (cap msg < 4)%nat -> getSessionID msg h = (Failed SliceBoundsOutOfRange, h).
Proof.
  intros H. unfold getSessionID.
  now erewrite bind_failed by (apply reslice_to_short; lia).
Qed.

Lemma setSessionID_short (h : heap) msg id :
  (cap msg < 4)%nat -> setSessionID msg id h = (Failed SliceBoundsOutOfRange, h).
Proof.
  intros H. unfold setSessionID.
  now erewrite bind_failed by (apply reslice_to_short; lia).
Qed.

Lemma contents_payload h msg :
  contents h (Slice (arr msg) (off msg + 4) (len msg - 4) (cap msg - 4))
  = drop 4 (contents h msg).
Proof.
  unfold contents. simpl.
  now rewrite skipn_firstn_comm, drop_drop.
Qed.

Lemma contents_insert h s a :
  contents (<[arr s := a]> h) s = take (len s) (drop (off s) a).
Proof. unfold contents. now rewrite lookup_insert_eq. Qed.

Lemma idToBytes_ok (h : heap) id :
  idToBytes id h
  = (Returned (Slice (fresh (dom h)) 0 4 4),
     <[fresh (dom h) := le_bytes id]> h).
Proof.
  unfold idToBytes.
  erewrite bind_returned by reflexivity.
  erewrite bind_returned by (apply reslice_to_ok; simpl; lia).
  erewrite bind_returned.
  2:{ apply PutUint32_ok with (a := replicate 4 (byte.of_Z 0)).
      - apply lookup_insert_eq.
      - simpl; lia.
      - simpl; lia. }
  simpl. now rewrite insert_insert_eq.
Qed.

(** Decoding a frame whose first four bytes are the little-endian bytes of
    [id]. *)
Lemma decode_frame h msg id payload :
  valid h msg -> contents h msg = le_bytes id ++ payload ->
  getSessionID msg h = (Returned (uint32 id), h) ∧
  ∃ data, getData msg h = (Returned data, h) ∧ contents h data = payload.
Proof.
  intros (Hlc & a & Ha & Hin) Hc.
  assert (4 <= len msg)%nat as Hlen.
  { apply (f_equal length) in Hc. unfold contents in Hc.
    rewrite length_take, length_app in Hc. simpl in Hc. lia. }
  split.
  - unfold contents in Hc. rewrite Ha in Hc. simpl in Hc.
    assert (4 <= length (drop (off msg) a))%nat as Hl
        by (rewrite length_drop; lia).
    destruct (drop (off msg) a) as [|y0 [|y1 [|y2 [|y3 rest]]]] eqn:Hd;
      simpl in Hl; try lia.
    destruct (len msg) as [|[|[|[|n]]]]; try lia.
    simpl in Hc. injection Hc as -> -> -> -> _.
    rewrite <- le_value_bytes. eapply getSessionID_ok; eauto. lia.
  - eexists. split; [apply getData_ok; lia|].
    rewrite contents_payload, Hc. reflexivity.
Qed.

Lemma contents_after_set h msg a id :
  h !! arr msg = Some a -> (4 <= len msg <= cap msg)%nat ->
  (off msg + cap msg <= length a)%nat ->
  contents (<[arr msg := written (off msg) id a]> h) msg
  = le_bytes id ++ drop 4 (contents h msg).
Proof.
  intros Ha Hlen Hin. rewrite contents_insert.
  rewrite drop_written by lia. unfold contents. rewrite Ha. simpl default.
  rewrite take_app_ge by (simpl; lia).
  rewrite skipn_firstn_comm, drop_drop. reflexivity.
Qed.

Lemma valid_insert h s a a' :
  valid h s -> h !! arr s = Some a -> length a' = length a ->
  valid (<[arr s := a']> h) s.
Proof.
  intros (Hlc & a0 & Ha0 & Hin) Ha Hl. split; [assumption|].
  exists a'. rewrite lookup_insert_eq. split; [reflexivity|].
  rewrite Hl. congruence.
Qed.

Lemma frame_msg_valid : valid frame_heap frame_msg.
Proof. split; [simpl; lia|]. eexists. split; [reflexivity|simpl; lia]. Qed.

(** C1: for every uint32 [id], stamping [id] into the header of a message of
    at least four bytes and then decoding it gives back [id] and, as data,
    the bytes that followed the header before the stamping; and a message
    made of the bytes of [idToBytes id] followed by a payload decodes to
    [id] and that payload. *)
Theorem session_id_round_trip (id : Z) :
  is_uint32 id ->
  (∀ h msg, valid h msg -> (4 <= len msg)%nat ->
     ∃ h', setSessionID msg id h = (Returned tt, h') ∧
           getSessionID msg h' = (Returned id, h') ∧
           ∃ data, getData msg h' = (Returned data, h') ∧
                   contents h' data = drop 4 (contents h msg)) ∧
  (∀ h0 hdr h1 h msg payload,
     idToBytes id h0 = (Returned hdr, h1) ->
     valid h msg -> contents h msg = contents h1 hdr ++ payload ->
     getSessionID msg h = (Returned id, h) ∧
     ∃ data, getData msg h = (Returned data, h) ∧ contents h data = payload).
Proof.
  intros Hid. split.
  - intros h msg Hv Hlen. pose proof Hv as (Hlc & a & Ha & Hin).
    exists (<[arr msg := written (off msg) id a]> h).
    split; [apply setSessionID_ok; auto; lia|].
    rewrite <- (uint32_small id Hid) at 2.
    apply decode_frame.
    + eapply valid_insert; eauto using length_written.
    + apply contents_after_set; auto; lia.
  - intros h0 hdr h1 h msg payload Hb Hv Hc.
    rewrite idToBytes_ok in Hb. injection Hb as <- <-.
    unfold contents at 2 in Hc. simpl in Hc.
    rewrite lookup_insert_eq in Hc. simpl in Hc.
    rewrite <- (uint32_small id Hid) at 1.
    now apply decode_frame.
Qed.

Lemma session_id_round_trip_witness :
  ∃ h', setSessionID frame_msg 7 frame_heap = (Returned tt, h') ∧
        getSessionID frame_msg h' = (Returned 7, h') ∧
        ∃ data, getData frame_msg h' = (Returned data, h') ∧
                contents h' data = drop 4 (contents frame_heap frame_msg).
Proof.
  assert (is_uint32 7) as H7 by (unfold is_uint32; lia).
  apply (proj1 (session_id_round_trip 7 H7) frame_heap frame_msg).
  - exact frame_msg_valid.
  - simpl; lia.
Defined.

(** The slice [idToBytes] returns is a valid frame holding the four bytes
    of [id] and nothing else. *)
Lemma idToBytes_frame (h : heap) id :
  let b := Slice (fresh (dom h)) 0 4 4 in
  let h' := <[fresh (dom h) := le_bytes id]> h in
  valid h' b ∧ contents h' b = le_bytes id ++ [] ∧
  getSessionID b h' = (Returned (uint32 id), h') ∧
  getData b h' = (Returned (Slice (fresh (dom h)) 4 0 0), h').
Proof.
  intros b h'.
  assert (valid h' b) as Hv.
  { split; [simpl; lia|]. exists (le_bytes id). subst b h'. simpl.
    rewrite lookup_insert_eq. split; [reflexivity|lia]. }
  assert (contents h' b = le_bytes id ++ []) as Hc.
  { unfold contents. subst b h'. simpl. now rewrite lookup_insert_eq. }
  destruct (decode_frame _ _ id [] Hv Hc) as (Hid & _).
  split_and!; try assumption.
  subst b. now rewrite getData_ok by (simpl; lia).
Qed.

(** C3: for every [id] and heap, [idToBytes id] returns a freshly allocated
    slice of length (and capacity) exactly 4, leaving every other array as it
    was; taken as a frame it has the 4-byte header and an empty payload:
    [getData] returns the empty slice and [getSessionID] the id. *)
Theorem idToBytes_header_length (id : Z) (h : heap) :
  ∃ b h', idToBytes id h = (Returned b, h') ∧
          len b = 4%nat ∧ cap b = 4%nat ∧
          length (contents h' b) = 4%nat ∧
          valid h' b ∧
          h !! arr b = None ∧ (∀ l, l ≠ arr b -> h' !! l = h !! l) ∧
          getSessionID b h' = (Returned (uint32 id), h') ∧
          ∃ data, getData b h' = (Returned data, h') ∧
                  len data = 0%nat ∧ contents h' data = [].
Proof.
  rewrite idToBytes_ok. do 2 eexists. split; [reflexivity|].
  destruct (idToBytes_frame h id) as (Hv & Hc & Hid & Hd).
  split_and!; try assumption; try reflexivity.
  - now rewrite Hc.
  - simpl. apply not_elem_of_dom, is_fresh.
  - simpl. intros l Hl. now rewrite lookup_insert_ne by congruence.
  - eexists. split_and!; [exact Hd|reflexivity|].
    unfold contents. simpl. apply take_0.
Qed.

(** C9: on a message of at least four bytes [setSessionID] returns, and the
    heap it leaves differs from the one it found only inside the first four
    bytes of the message: the message keeps its length, every byte of it at
    index 4 or more is the same, its backing array is the same outside the
    header window, and every other array is untouched. *)
Theorem setSessionID_frame (h : heap) (msg : message) (id : Z) :
  valid h msg -> (4 <= len msg)%nat ->
  ∃ h', setSessionID msg id h = (Returned tt, h') ∧
        length (contents h' msg) = length (contents h msg) ∧
        (∀ i, (4 <= i)%nat -> contents h' msg !! i = contents h msg !! i) ∧
        drop 4 (contents h' msg) = drop 4 (contents h msg) ∧
        (∀ l, l ≠ arr msg -> h' !! l = h !! l) ∧
        (∀ a, h !! arr msg = Some a ->
           ∃ a', h' !! arr msg = Some a' ∧ length a' = length a ∧
                 ∀ j, (j < off msg ∨ off msg + 4 <= j)%nat -> a' !! j = a !! j).
Proof.
  intros (Hlc & a & Ha & Hin) Hlen.
  exists (<[arr msg := written (off msg) id a]> h).
  split; [apply setSessionID_ok; auto; lia|].
  assert (contents (<[arr msg := written (off msg) id a]> h) msg
          = le_bytes id ++ drop 4 (contents h msg)) as Hc
      by (apply contents_after_set; auto; lia).
  assert (4 <= length (contents h msg))%nat as Hl4.
  { unfold contents. rewrite Ha. simpl. rewrite length_take, length_drop. lia. }
  split_and!.
  - rewrite Hc, length_app, length_drop. simpl. lia.
  - intros i Hi. rewrite Hc.
    rewrite lookup_app_r by (simpl; lia). rewrite lookup_drop. simpl.
    f_equal. lia.
  - rewrite Hc. reflexivity.
  - intros l Hl. now rewrite lookup_insert_ne by congruence.
  - intros a0 Ha0. assert (a0 = a) as -> by congruence.
    exists (written (off msg) id a). rewrite lookup_insert_eq.
    split; [reflexivity|]. split; [apply length_written|].
    intros j Hj. now apply lookup_written_outside.
Qed.

Lemma setSessionID_frame_witness :
  ∃ h', setSessionID frame_msg 7 frame_heap = (Returned tt, h') ∧
        length (contents h' frame_msg) = length (contents frame_heap frame_msg) ∧
        (∀ i, (4 <= i)%nat ->
              contents h' frame_msg !! i = contents frame_heap frame_msg !! i) ∧
        drop 4 (contents h' frame_msg) = drop 4 (contents frame_heap frame_msg) ∧
        (∀ l, l ≠ arr frame_msg -> h' !! l = frame_heap !! l) ∧
        (∀ a, frame_heap !! arr frame_msg = Some a ->
           ∃ a', h' !! arr frame_msg = Some a' ∧ length a' = length a ∧
                 ∀ j, (j < off frame_msg ∨ off frame_msg + 4 <= j)%nat ->
                      a' !! j = a !! j).
Proof.
  apply (setSessionID_frame frame_heap frame_msg 7).
  - exact frame_msg_valid.
  - simpl; lia.
Defined.

(** C10: the header is little-endian. For every uint32 [id], the slice
    [idToBytes id] returns holds [id]'s bytes least significant first, and
    [getSessionID] reads [id] back from it; [idToBytes 1] is [[1;0;0;0]]; and
    on any message [getSessionID] returns
    [b0 + 2^8 * b1 + 2^16 * b2 + 2^24 * b3] for its first four bytes. *)
Theorem header_is_little_endian (id : Z) :
  is_uint32 id ->
  (∀ h, ∃ b h',
      idToBytes id h = (Returned b, h') ∧
      byte.unsigned <$> contents h' b
      = [id mod 2 ^ 8; (id / 2 ^ 8) mod 2 ^ 8;
         (id / 2 ^ 16) mod 2 ^ 8; (id / 2 ^ 24) mod 2 ^ 8] ∧
      getSessionID b h' = (Returned id, h')) ∧
  (∀ h, ∃ b h',
      idToBytes 1 h = (Returned b, h') ∧ contents h' b = bytes_of [1; 0; 0; 0]) ∧
  (∀ h msg b0 b1 b2 b3 rest,
      valid h msg -> contents h msg = b0 :: b1 :: b2 :: b3 :: rest ->
      getSessionID msg h
      = (Returned (byte.unsigned b0 + 2 ^ 8 * byte.unsigned b1
                   + 2 ^ 16 * byte.unsigned b2 + 2 ^ 24 * byte.unsigned b3), h)).
Proof.
  intros Hid. split; [|split].
  - intros h. rewrite idToBytes_ok. do 2 eexists. split; [reflexivity|].
    destruct (idToBytes_frame h id) as (_ & Hc & Hget & _). split.
    + rewrite Hc, app_nil_r. simpl.
      unfold byte_of_uint32, shr32. rewrite !byte.unsigned_of_Z.
      unfold byte.wrap. now rewrite !Z.shiftr_div_pow2 by lia.
    + now rewrite (uint32_small id Hid) in Hget.
  - intros h. rewrite idToBytes_ok. do 2 eexists. split; [reflexivity|].
    unfold contents. simpl. now rewrite lookup_insert_eq.
  - intros h msg b0 b1 b2 b3 rest (Hlc & a & Ha & Hin) Hc.
    rewrite <- le_value_sum.
    assert (4 <= len msg)%nat as Hlen.
    { apply (f_equal length) in Hc. unfold contents in Hc.
      rewrite length_take in Hc. simpl in Hc. lia. }
    unfold contents in Hc. rewrite Ha in Hc. simpl in Hc.
    assert (4 <= length (drop (off msg) a))%nat as Hl
        by (rewrite length_drop; lia).
    destruct (drop (off msg) a) as [|y0 [|y1 [|y2 [|y3 rest']]]] eqn:Hd;
      simpl in Hl; try lia.
    destruct (len msg) as [|[|[|[|n]]]]; try lia.
    simpl in Hc. injection Hc as -> -> -> -> _.
    eapply getSessionID_ok; eauto. lia.
Qed.

Lemma header_is_little_endian_witness :
  ∃ b h',
    idToBytes 258 ∅ = (Returned b, h') ∧
    byte.unsigned <$> contents h' b
    = [258 mod 2 ^ 8; (258 / 2 ^ 8) mod 2 ^ 8;
       (258 / 2 ^ 16) mod 2 ^ 8; (258 / 2 ^ 24) mod 2 ^ 8] ∧
    getSessionID b h' = (Returned 258, h').
Proof.
  assert (is_uint32 258) as H by (unfold is_uint32; lia).
  exact (proj1 (header_is_little_endian 258 H) ∅).
Defined.

Lemma short_msg_valid : valid short_heap short_msg.
Proof. split; [simpl; lia|]. eexists. split; [reflexivity|simpl; lia]. Qed.

Lemma tight_msg_valid : valid tight_heap tight_msg.
Proof. split; [simpl; lia|]. eexists. split; [reflexivity|simpl; lia]. Qed.

(** C2, as the code has it: on a message shorter than four bytes [getData]
    does not return, it panics on the slice bounds; [getSessionID] and
    [setSessionID] panic in the same way when the capacity is below four,
    and nothing is written. No error value is returned by any of them. *)
Theorem short_message_panics (h : heap) (msg : message) :
  (len msg < 4)%nat ->
  getData msg h = (Failed SliceBoundsOutOfRange, h) ∧
  ((cap msg < 4)%nat ->
   getSessionID msg h = (Failed SliceBoundsOutOfRange, h) ∧
   ∀ id, setSessionID msg id h = (Failed SliceBoundsOutOfRange, h)).
Proof.
  intros Hlen. split; [now apply getData_short|].
  intros Hcap. split; [now apply getSessionID_short|].
  intros id. now apply setSessionID_short.
Qed.

Lemma short_message_panics_witness :
  getData tight_msg tight_heap = (Failed SliceBoundsOutOfRange, tight_heap) ∧
  ((cap tight_msg < 4)%nat ->
   getSessionID tight_msg tight_heap = (Failed SliceBoundsOutOfRange, tight_heap) ∧
   ∀ id, setSessionID tight_msg id tight_heap
         = (Failed SliceBoundsOutOfRange, tight_heap)).
Proof.
  apply (short_message_panics tight_heap tight_msg). simpl; lia.
Defined.

(** C2, as stated, fails: a valid three-byte message cut from an eight-byte
    buffer makes [getData] panic (a crash, not an error value) while
    [getSessionID] returns a session id read past the end of the message;
    with no spare capacity both panic. So it is not the case that on every
    valid message shorter than four bytes neither accessor panics and
    [getSessionID] returns no id. *)
Lemma short_message_not_rejected :
  (valid short_heap short_msg ∧ len short_msg = 3%nat ∧
   getData short_msg short_heap = (Failed SliceBoundsOutOfRange, short_heap) ∧
   getSessionID short_msg short_heap = (Returned 197121, short_heap)) ∧
  (valid tight_heap tight_msg ∧ len tight_msg = 3%nat ∧
   getData tight_msg tight_heap = (Failed SliceBoundsOutOfRange, tight_heap) ∧
   getSessionID tight_msg tight_heap = (Failed SliceBoundsOutOfRange, tight_heap)) ∧
  ¬ (∀ (h : heap) (msg : message),
        valid h msg -> (len msg < 4)%nat ->
        (∀ f, fst (getData msg h) ≠ Failed f) ∧
        (∀ f, fst (getSessionID msg h) ≠ Failed f) ∧
        (∀ id, fst (getSessionID msg h) ≠ Returned id)).
Proof.
  split_and!; try reflexivity; try exact short_msg_valid; try exact tight_msg_valid.
  intros H.
  destruct (H short_heap short_msg short_msg_valid) as (Hd & _); [simpl; lia|].
  now apply (Hd SliceBoundsOutOfRange).
Qed.

(** ** [udpAddresses] *)

Section udpAddresses_properties.

Variable UDP : natty.Protocol.
Variable UDPAddr : Type.
Variable ResolveUDPAddr : string -> string -> option UDPAddr * option string.

(** C4: a five-tuple whose protocol is not UDP is rejected with an error
    and nil addresses; when the protocol is UDP and both addresses
    resolve, the two resolved addresses are returned with no error; and a
    UDP five-tuple one of whose addresses does not resolve is rejected as
    well. *)
Theorem udpAddresses_checks_protocol (ft : natty.FiveTuple) :
  (natty.Proto ft ≠ UDP ->
   ∃ e, udpAddresses UDP ResolveUDPAddr ft = (None, None, Some e)) ∧
  (∀ l r, natty.Proto ft = UDP ->
          ResolveUDPAddr "udp" (natty.Local ft) = (l, None) ->
          ResolveUDPAddr "udp" (natty.Remote ft) = (r, None) ->
          udpAddresses UDP ResolveUDPAddr ft = (l, r, None)) ∧
  (∀ l e, natty.Proto ft = UDP ->
          ResolveUDPAddr "udp" (natty.Local ft) = (l, Some e) ->
          ∃ e', udpAddresses UDP ResolveUDPAddr ft = (None, None, Some e')) ∧
  (∀ l r e, natty.Proto ft = UDP ->
            ResolveUDPAddr "udp" (natty.Local ft) = (l, None) ->
            ResolveUDPAddr "udp" (natty.Remote ft) = (r, Some e) ->
            ∃ e', udpAddresses UDP ResolveUDPAddr ft = (None, None, Some e')).
Proof.
  unfold udpAddresses. split_and!.
  - intros Hne. apply String.eqb_neq in Hne. rewrite Hne. simpl. eauto.
  - intros l r Hp Hl Hr. apply String.eqb_eq in Hp.
    rewrite Hp, Hl, Hr. reflexivity.
  - intros l e Hp Hl. apply String.eqb_eq in Hp.
    rewrite Hp, Hl. simpl. eauto.
  - intros l r e Hp Hl Hr. apply String.eqb_eq in Hp.
    rewrite Hp, Hl, Hr. simpl. eauto.
Qed.

End udpAddresses_properties.

Lemma udpAddresses_checks_protocol_witness :
  (∃ e, udpAddresses "udp" sample_resolver tcp_tuple = (None, None, Some e)) ∧
  udpAddresses "udp" sample_resolver udp_tuple
  = (Some ("10.0.0.1", 5000), Some ("10.0.0.2", 6000), None).
Proof.
  split.
  - apply (proj1 (udpAddresses_checks_protocol "udp" _ sample_resolver tcp_tuple)).
    simpl. discriminate.
  - apply (proj1 (proj2 (udpAddresses_checks_protocol "udp" _ sample_resolver udp_tuple)));
      reflexivity.
Defined.

(** ** [connectToWaddell] and [main] *)

(** Membership of an event in a trace that is written out. *)
Ltac in_trace :=
  repeat match goal with
    | H : _ ∈ [] |- _ => apply elem_of_nil in H; contradiction
    | H : _ ∈ _ :: _ |- _ => apply elem_of_cons in H; destruct H as [H|H]
    | H : @eq Event _ _ |- _ => discriminate H
    | |- _ ∉ _ => intros ?
    | |- _ ∈ _ :: _ => apply elem_of_cons; first [left; reflexivity | right]
    end.

Lemma mode_foldl_assign (args : list Setting) (f : Flags) :
  (∀ s, SetMode s ∉ args) -> mode (foldl assign f args) = mode f.
Proof.
  revert f. induction args as [|a args IH]; intros f Hno; [reflexivity|].
  simpl. rewrite IH.
  - destruct a; try reflexivity. exfalso. apply (Hno s). left.
  - intros s Hs. apply (Hno s). now right.
Qed.

Section demo_properties.

Local Arguments String.eqb : simpl never.

Variable Conn : Type.
Variable Client : Type.
Variable Dial : string -> string -> option Conn * option string.
Variable Connect : option Conn -> option Client * option string.

Lemma relay_failed_not_connected f c : relay_failed Dial Connect f -> ¬ relay_connected Dial Connect f c.
Proof.
  intros [(conn & e & HD)|(conn & c' & e & HD & HC)] (conn' & HD' & HC');
    congruence.
Qed.

Lemma connectToWaddell_failed (w : World Client) :
  relay_failed Dial Connect (flags w) ->
  ∃ line, connectToWaddell Dial Connect w
          = (Failed (Exit 1),
             {| flags := flags w;
                wc := if snd (Dial "tcp" (waddellAddr (flags w))) is Some _
                      then wc w
                      else fst (Connect (fst (Dial "tcp" (waddellAddr (flags w)))));
                debugOut := debugOut w;
                trace := (trace w ++ [Dialed "tcp" (waddellAddr (flags w))])
                           ++ [Logged line] |}).
Proof.
  intros [(conn & e & HD)|(conn & c' & e & HD & HC)];
    unfold connectToWaddell, bind; simpl; rewrite HD; simpl.
  - eexists. reflexivity.
  - rewrite HC. simpl. eexists. reflexivity.
Qed.

Lemma connectToWaddell_connected (w : World Client) c :
  relay_connected Dial Connect (flags w) c ->
  connectToWaddell Dial Connect w
  = (Returned tt,
     {| flags := flags w; wc := c; debugOut := debugOut w;
        trace := trace w ++ [Dialed "tcp" (waddellAddr (flags w))] |}).
Proof.
  intros (conn & HD & HC).
  unfold connectToWaddell, bind; simpl; rewrite HD; simpl.
  rewrite HC. reflexivity.
Qed.

Lemma relay_connected_or_failed f :
  (∃ c, relay_connected Dial Connect f c) ∨ relay_failed Dial Connect f.
Proof.
  unfold relay_connected, relay_failed.
  destruct (Dial "tcp" (waddellAddr f)) as [conn [e|]] eqn:HD.
  - right. left. eauto.
  - destruct (Connect conn) as [c [e|]] eqn:HC.
    + right. right. eauto 6.
    + left. eauto.
Qed.

(** The three ways [main] can go. *)
Lemma main_help args :
  help (parsed args) = true ->
  main Dial Connect args initial
  = (Returned tt,
     {| flags := parsed args; wc := None; debugOut := None;
        trace := [PrintedUsage] |}).
Proof.
  intros Hh. unfold main, bind. simpl. fold (parsed args). now rewrite Hh.
Qed.

Lemma main_failed args :
  help (parsed args) = false -> relay_failed Dial Connect (parsed args) ->
  ∃ c line,
    main Dial Connect args initial
    = (Failed (Exit 1),
       {| flags := parsed args; wc := c;
          debugOut := if debug (parsed args) then Some Stderr else None;
          trace := [Dialed "tcp" (waddellAddr (parsed args)); Logged line] |}).
Proof.
  intros Hh Hf. unfold main.
  unfold bind at 1. simpl. fold (parsed args).
  unfold bind at 1. simpl. rewrite Hh.
  unfold bind at 1.
  set (w := {| flags := parsed args; wc := None;
               debugOut := if debug (parsed args) then Some Stderr else None;
               trace := [] |} : World Client).
  assert ((if debug (parsed args) then set_debugOut Client (Some Stderr) else ret tt)
            {| flags := parsed args; wc := None; debugOut := None; trace := [] |}
          = (Returned tt, w)) as -> by (subst w; now destruct (debug (parsed args))).
  destruct (connectToWaddell_failed w Hf) as (line & Hc).
  erewrite bind_failed by exact Hc. simpl. eauto.
Qed.

Lemma main_connected args c :
  help (parsed args) = false -> relay_connected Dial Connect (parsed args) c ->
  main Dial Connect args initial
  = (Returned tt,
     {| flags := parsed args; wc := c;
        debugOut := if debug (parsed args) then Some Stderr else None;
        trace := [Dialed "tcp" (waddellAddr (parsed args));
                  if String.eqb "server" (mode (parsed args))
                  then RanServer else RanClient] |}).
Proof.
  intros Hh Hc. unfold main.
  unfold bind at 1. simpl. fold (parsed args).
  unfold bind at 1. simpl. rewrite Hh.
  unfold bind at 1.
  set (w := {| flags := parsed args; wc := None;
               debugOut := if debug (parsed args) then Some Stderr else None;
               trace := [] |} : World Client).
  assert ((if debug (parsed args) then set_debugOut Client (Some Stderr) else ret tt)
            {| flags := parsed args; wc := None; debugOut := None; trace := [] |}
          = (Returned tt, w)) as -> by (subst w; now destruct (debug (parsed args))).
  erewrite bind_returned by (apply connectToWaddell_connected; exact Hc).
  unfold bind. simpl.
  now destruct (String.eqb "server" (mode (parsed args))).
Qed.

Lemma main_runs args r w' :
  main Dial Connect args initial = (r, w') -> main_run Dial Connect args r w'.
Proof.
  intros Hm. destruct (help (parsed args)) eqn:Hh.
  - rewrite main_help in Hm by assumption. injection Hm as <- <-.
    now constructor.
  - destruct (relay_connected_or_failed (parsed args)) as [[c Hc]|Hf].
    + rewrite (main_connected args c Hh Hc) in Hm. injection Hm as <- <-.
      now constructor.
    + destruct (main_failed args Hh Hf) as (c & line & Hm').
      rewrite Hm' in Hm. injection Hm as <- <-. now constructor.
Qed.

(** C7: when the dial or the relay handshake fails, [connectToWaddell]
    ends the process with [log.Fatalf] (exit status 1), and so does
    [main] unless [-help] was given, without entering either role; and
    whenever [main] enters a role, the dial and the handshake both
    succeeded and [wc] holds the client the handshake returned. *)
Theorem relay_failure_is_fatal (args : list Setting) :
  (∀ w : World Client,
      relay_failed Dial Connect (flags w) ->
      ∃ w', connectToWaddell Dial Connect w = (Failed (Exit 1), w')) ∧
  (help (parsed args) = false ->
   relay_failed Dial Connect (parsed args) ->
   ∃ w', main Dial Connect args initial = (Failed (Exit 1), w') ∧
         (RanServer ∉ trace w') ∧ (RanClient ∉ trace w')) ∧
  (∀ r w', main Dial Connect args initial = (r, w') ->
           RanServer ∈ trace w' ∨ RanClient ∈ trace w' ->
           r = Returned tt ∧
           relay_connected Dial Connect (parsed args) (wc w')).
Proof.
  split_and!.
  - intros w Hf. destruct (connectToWaddell_failed w Hf) as (line & ->). eauto.
  - intros Hh Hf. destruct (main_failed args Hh Hf) as (c & line & ->).
    eexists. split; [reflexivity|]. simpl. split; in_trace.
  - intros r w' Hm Hrole.
    destruct (main_runs args r w' Hm); simpl in Hrole.
    + destruct Hrole; in_trace.
    + destruct Hrole; in_trace.
    + now split.
Qed.

(** C8: the role is chosen by comparing [-mode] with the string
    [server]. Whenever [main] enters the server role the flag is exactly
    [server], and whenever it enters the client role the flag is anything
    else; when the run gets as far as the choice ([-help] not given, relay
    connected) it enters the server role if and only if the flag is
    [server] and the client role if and only if it is not; and a command
    line that does not set [-mode] leaves it at [client], so that the
    server role is not entered. *)
Theorem mode_selects_role (args : list Setting) (r : outcome unit)
        (w' : World Client) :
  main Dial Connect args initial = (r, w') ->
  (RanServer ∈ trace w' -> mode (parsed args) = "server") ∧
  (RanClient ∈ trace w' -> mode (parsed args) ≠ "server") ∧
  (help (parsed args) = false ->
   (∃ c, relay_connected Dial Connect (parsed args) c) ->
   (RanServer ∈ trace w' ↔ mode (parsed args) = "server") ∧
   (RanClient ∈ trace w' ↔ mode (parsed args) ≠ "server")) ∧
  ((∀ s, SetMode s ∉ args) ->
   mode (parsed args) = "client" ∧ (RanServer ∉ trace w')).
Proof.
  intros Hm. apply main_runs in Hm.
  assert (RanServer ∈ trace w' -> mode (parsed args) = "server") as Hs.
  { intros Hin. destruct Hm; simpl in Hin; try solve [in_trace].
    destruct (String.eqb_spec "server" (mode (parsed args))); [auto|in_trace]. }
  assert (RanClient ∈ trace w' -> mode (parsed args) ≠ "server") as Hc.
  { intros Hin. destruct Hm; simpl in Hin; try solve [in_trace].
    destruct (String.eqb_spec "server" (mode (parsed args))); [in_trace|auto]. }
  split_and!; try assumption.
  - intros Hh [c Hconn].
    destruct Hm as [Hh'| |c' _ _]; try congruence;
      try (exfalso; eapply relay_failed_not_connected; eassumption).
    simpl. split; (split; [auto|]); intros Hmode;
      destruct (String.eqb_spec "server" (mode (parsed args)));
      try congruence; in_trace.
  - intros Hno.
    assert (mode (parsed args) = "client") as Hcl
        by (unfold parsed; now rewrite mode_foldl_assign).
    split; [assumption|]. intros Hin. apply Hs in Hin.
    rewrite Hcl in Hin. discriminate.
Qed.

End demo_properties.

Lemma relay_failure_is_fatal_witness :
  ∃ w', main relay_down_dial relay_handshake [SetMode "server"] initial
        = (Failed (Exit 1), w') ∧
        (RanServer ∉ trace w') ∧ (RanClient ∉ trace w').
Proof.
  apply (proj1 (proj2 (relay_failure_is_fatal unit unit relay_down_dial
                         relay_handshake [SetMode "server"]))).
  - reflexivity.
  - left. exists None, "connection refused". reflexivity.
Defined.

Lemma mode_selects_role_witness :
  RanServer ∈ trace (snd (main relay_up_dial relay_handshake
                               [SetMode "server"] initial)) ∧
  RanClient ∈ trace (snd (main relay_up_dial relay_handshake
                               [SetMode "Server"] initial)) ∧
  RanClient ∈ trace (snd (main relay_up_dial relay_handshake [] initial)).
Proof.
  assert (∀ args, ∃ c, relay_connected relay_up_dial relay_handshake (parsed args) c)
    as Hup by (intros args; exists (Some tt), (Some tt); split; reflexivity).
  split_and!.
  - apply (proj1 (proj2 (proj2 (mode_selects_role unit unit relay_up_dial
             relay_handshake [SetMode "server"] _ _ eq_refl))));
      [reflexivity | apply Hup | reflexivity].
  - apply (proj1 (proj2 (proj2 (mode_selects_role unit unit relay_up_dial
             relay_handshake [SetMode "Server"] _ _ eq_refl))));
      [reflexivity | apply Hup | discriminate].
  - apply (proj1 (proj2 (proj2 (mode_selects_role unit unit relay_up_dial
             relay_handshake [] _ _ eq_refl))));
      [reflexivity | apply Hup | discriminate].
Defined.

(** ** The traversal session *)

Module SessionFacts.

Import natty Session.

Lemma await_unfold deadline s sched :
  await deadline s sched =
  if closed s then (Err SessionClosed, s, sched)
  else if resolved s is Some ft then (Ok ft, s, sched)
  else if failed s then (Err NegotiationFailed, s, sched)
  else match sched with
       | [] => (if deadline is Some _ then Err TimeoutError else Blocked, s, [])
       | (time, e) :: rest =>
           if deadline is Some d then
             if decide (d <= time)%N then (Err TimeoutError, s, sched)
             else await deadline (step s e) rest
           else await deadline (step s e) rest
       end.
Proof. destruct sched as [|[time e] rest]; reflexivity. Qed.

Lemma step_resolved s e ft : resolved s = Some ft -> resolved (step s e) = Some ft.
Proof.
  intros H. unfold step. destruct (closed s); [assumption|].
  destruct e; simpl; try assumption; now rewrite H.
Qed.

Lemma steps_resolved s es ft :
  resolved s = Some ft -> resolved (steps s es) = Some ft.
Proof.
  revert s. induction es as [|e es IH]; intros s H; [assumption|].
  simpl. apply IH. now apply step_resolved.
Qed.

Lemma await_resolved deadline s sched ft :
  closed s = false -> resolved s = Some ft ->
  await deadline s sched = (Ok ft, s, sched).
Proof. intros Hc Hr. rewrite await_unfold. now rewrite Hc, Hr. Qed.

Lemma await_Ok deadline s sched ft s1 rest :
  await deadline s sched = (Ok ft, s1, rest) ->
  closed s1 = false ∧ resolved s1 = Some ft.
Proof.
  revert s. induction sched as [|[time e] sched IH]; intros s;
    rewrite await_unfold;
    destruct (closed s) eqn:Hc; try discriminate;
    destruct (resolved s) as [ft0|] eqn:Hr;
    try (intros [= <- <- <-]; now split);
    destruct (failed s); try discriminate.
  - destruct deadline; discriminate.
  - destruct deadline as [d|]; [destruct (decide (d <= time)%N)|];
      try discriminate; apply IH.
Qed.

Lemma await_Timeout deadline s sched s' rest :
  await deadline s sched = (Err TimeoutError, s', rest) ->
  closed s' = false ∧ resolved s' = None ∧ failed s' = false ∧
  await None s' rest = await None s sched.
Proof.
  revert s. induction sched as [|[time e] sched IH]; intros s;
    rewrite await_unfold, (await_unfold None s);
    destruct (closed s) eqn:Hc; try discriminate;
    destruct (resolved s) as [ft0|] eqn:Hr; try discriminate;
    destruct (failed s) eqn:Hf; try discriminate.
  - destruct deadline; [|discriminate]. intros [= <- <-].
    split_and!; try assumption. rewrite await_unfold. now rewrite Hc, Hr, Hf.
  - destruct deadline as [d|]; [destruct (decide (d <= time)%N)|].
    + intros [= <- <-]. split_and!; try assumption.
      rewrite await_unfold. now rewrite Hc, Hr, Hf.
    + apply IH.
    + apply IH.
Qed.

Lemma step_pump s te :
  pump_event te -> closed s = false -> resolved s = None -> failed s = false ->
  closed (step s (snd te)) = false ∧ resolved (step s (snd te)) = None ∧
  failed (step s (snd te)) = false.
Proof.
  intros Hp Hc Hr Hf. unfold step. rewrite Hc.
  destruct te as [time []]; simpl in *; try contradiction; auto.
Qed.

Lemma await_completes s pre time ft post :
  Forall pump_event pre ->
  closed s = false -> resolved s = None -> failed s = false ->
  ∃ s1, await None s (pre ++ (time, EngineResolved ft) :: post) = (Ok ft, s1, post).
Proof.
  intros Hpre. revert s. induction Hpre as [|te pre Hte Hpre IH];
    intros s Hc Hr Hf; rewrite await_unfold, Hc, Hr, Hf; cbn [app].
  - eexists. apply await_resolved; unfold step; rewrite Hc, Hr, Hf; reflexivity.
  - destruct te as [time' e].
    destruct (step_pump s (time', e) Hte Hc Hr Hf) as (Hc' & Hr' & Hf').
    now apply IH.
Qed.

End SessionFacts.

(** C5: once a call of [resolve] has returned a five-tuple, calling it again
    at once returns the same five-tuple and leaves the session as it is;
    whatever happens to the session afterwards, its [resolved] field keeps
    that value; and every later call, bounded or not, returns that
    five-tuple, equal in its three fields, if the session is not closed, and
    never a different one. *)
Theorem resolve_is_idempotent (s s1 : Session.t) (sched rest : Session.schedule)
        (ft : natty.FiveTuple) :
  Session.resolve s sched = (Session.Ok ft, s1, rest) ->
  Session.resolve s1 rest = (Session.Ok ft, s1, rest) ∧
  ∀ (es : list Session.event) (deadline : option N) (later : Session.schedule),
    Session.resolved (Session.steps s1 es) = Some ft ∧
    (Session.closed (Session.steps s1 es) = false ->
     Session.await deadline (Session.steps s1 es) later
     = (Session.Ok ft, Session.steps s1 es, later)) ∧
    (∀ ft' s2 rest2,
        Session.await deadline (Session.steps s1 es) later = (Session.Ok ft', s2, rest2) ->
        natty.Local ft' = natty.Local ft ∧ natty.Remote ft' = natty.Remote ft ∧
        natty.Proto ft' = natty.Proto ft ∧ Session.resolved s2 = Some ft).
Proof.
  intros H. apply SessionFacts.await_Ok in H as [Hc Hr].
  split; [now apply SessionFacts.await_resolved|].
  intros es deadline later.
  pose proof (SessionFacts.steps_resolved s1 es ft Hr) as Hes.
  split_and!; [assumption| |].
  - intros Hopen. now apply SessionFacts.await_resolved.
  - intros ft' s2 rest2 Ha.
    destruct (Session.closed (Session.steps s1 es)) eqn:Hcl.
    + rewrite SessionFacts.await_unfold, Hcl in Ha. discriminate.
    + rewrite (SessionFacts.await_resolved _ _ _ ft Hcl Hes) in Ha.
      injection Ha as <- <- <-. auto.
Qed.

Lemma resolve_is_idempotent_witness :
  ∃ s1,
    Session.resolve s1 sample_rest = (Session.Ok sample_tuple, s1, sample_rest) ∧
    ∀ (es : list Session.event) (deadline : option N) (later : Session.schedule),
      Session.resolved (Session.steps s1 es) = Some sample_tuple ∧
      (Session.closed (Session.steps s1 es) = false ->
       Session.await deadline (Session.steps s1 es) later
       = (Session.Ok sample_tuple, Session.steps s1 es, later)) ∧
      (∀ ft' s2 rest2,
          Session.await deadline (Session.steps s1 es) later
          = (Session.Ok ft', s2, rest2) ->
          natty.Local ft' = natty.Local sample_tuple ∧
          natty.Remote ft' = natty.Remote sample_tuple ∧
          natty.Proto ft' = natty.Proto sample_tuple ∧
          Session.resolved s2 = Some sample_tuple).
Proof.
  eexists.
  apply (resolve_is_idempotent (Session.create Session.Initiator) _
           sample_schedule sample_rest sample_tuple).
  reflexivity.
Defined.

(** C6: a bounded resolve whose deadline passes before anything has happened
    to a new session returns [TimeoutError] and leaves the session and the
    events to come as they were, and the unbounded resolve made afterwards
    returns the five-tuple once the engine surfaces it; in general, after
    any bounded resolve that timed out the session is neither closed nor
    failed, and a later unbounded resolve returns exactly what it would
    have returned had the bounded call not been made. *)
Theorem timeout_leaves_session_usable :
  (∀ (r : Session.Role) (now d time : N) (pre post : Session.schedule)
     (ft : natty.FiveTuple),
      let sched := pre ++ (time, Session.EngineResolved ft) :: post in
      Session.quiet_until (now + d) sched -> Forall Session.pump_event pre ->
      Session.resolveWithTimeout now d (Session.create r) sched
      = (Session.Err Session.TimeoutError, Session.create r, sched) ∧
      ∃ s1, Session.resolve (Session.create r) sched = (Session.Ok ft, s1, post) ∧
            Session.state s1 = Session.Resolved) ∧
  (∀ (now d : N) (s s' : Session.t) (sched rest : Session.schedule),
      Session.resolveWithTimeout now d s sched
      = (Session.Err Session.TimeoutError, s', rest) ->
      Session.closed s' = false ∧ Session.failed s' = false ∧
      Session.resolved s' = None ∧
      Session.resolve s' rest = Session.resolve s sched).
Proof.
  split.
  - intros r now d time pre post ft sched Hq Hpre. split.
    + unfold Session.resolveWithTimeout. rewrite SessionFacts.await_unfold.
      simpl. destruct sched as [|[t0 e0] sched']; [reflexivity|].
      simpl in Hq. now rewrite decide_True by assumption.
    + destruct (SessionFacts.await_completes (Session.create r) pre time ft post Hpre)
        as (s1 & Hs1); try reflexivity.
      exists s1. split; [exact Hs1|].
      apply SessionFacts.await_Ok in Hs1 as [Hc Hr].
      unfold Session.state. now rewrite Hc, Hr.
  - intros now d s s' sched rest H.
    apply SessionFacts.await_Timeout in H as (Hc & Hr & Hf & Heq).
    split_and!; assumption.
Qed.

Lemma timeout_leaves_session_usable_witness :
  Session.resolveWithTimeout 0%N 500%N (Session.create Session.Initiator) sample_schedule
  = (Session.Err Session.TimeoutError, Session.create Session.Initiator,
     sample_schedule) ∧
  ∃ s1, Session.resolve (Session.create Session.Initiator) sample_schedule
        = (Session.Ok sample_tuple, s1, sample_rest) ∧
        Session.state s1 = Session.Resolved.
Proof.
  apply (proj1 timeout_leaves_session_usable Session.Initiator 0%N 500%N
           9000%N sample_pumping sample_rest sample_tuple).
  - vm_compute. discriminate.
  - unfold sample_pumping. repeat constructor.
Defined.

(** * Further properties of the code *)

(** ** More on the framed message *)

Lemma written_eq o v a :
  (o + 4 <= length a)%nat ->
  written o v a = take o a ++ le_bytes v ++ drop (o + 4) a.
Proof.
  intros Hl. rewrite <- (take_drop o (written o v a)).
  rewrite drop_written by assumption. f_equal.
  unfold written. now rewrite !take_insert_ge by lia.
Qed.

Lemma take_written o v a : take o (written o v a) = take o a.
Proof. unfold written. now rewrite !take_insert_ge by lia. Qed.

Lemma drop_past_written o v a n :
  (o + 4 <= n)%nat -> drop n (written o v a) = drop n a.
Proof. intros H. unfold written. now rewrite !drop_insert_lt by lia. Qed.

Lemma written_written o v1 v2 a :
  (o + 4 <= length a)%nat ->
  written o v2 (written o v1 a) = written o v2 a.
Proof.
  intros Hl.
  rewrite (written_eq o v2 (written o v1 a)) by (now rewrite length_written).
  rewrite take_written, drop_past_written by lia.
  now rewrite <- written_eq.
Qed.

Lemma le_value_range b0 b1 b2 b3 : is_uint32 (le_value b0 b1 b2 b3).
Proof.
  pose proof (byte.unsigned_range b0). pose proof (byte.unsigned_range b1).
  pose proof (byte.unsigned_range b2). pose proof (byte.unsigned_range b3).
  rewrite le_value_sum. unfold is_uint32. lia.
Qed.

Lemma le_bytes_value b0 b1 b2 b3 :
  le_bytes (le_value b0 b1 b2 b3) = [b0; b1; b2; b3].
Proof.
  pose proof (byte.unsigned_range b0). pose proof (byte.unsigned_range b1).
  pose proof (byte.unsigned_range b2). pose proof (byte.unsigned_range b3).
  unfold le_bytes, byte_of_uint32, shr32. rewrite le_value_sum.
  rewrite !Z.shiftr_div_pow2 by lia.
  repeat f_equal; apply byte.unsigned_inj; rewrite byte.unsigned_of_Z;
    unfold byte.wrap;
    change (2 ^ 8) with 256 in *; change (2 ^ 16) with 65536;
    change (2 ^ 24) with 16777216;
    Z.div_mod_to_equations; lia.
Qed.

Lemma le_bytes_inj v1 v2 :
  is_uint32 v1 -> is_uint32 v2 -> le_bytes v1 = le_bytes v2 -> v1 = v2.
Proof.
  intros H1 H2 He.
  rewrite <- (uint32_small v1 H1), <- (uint32_small v2 H2), <- !le_value_bytes.
  unfold le_bytes in He. now injection He as -> -> -> ->.
Qed.

Lemma drop_written_shift o k v a :
  drop o (written (o + k) v a) = written k v (drop o a).
Proof.
  unfold written. rewrite !drop_insert_ge by lia.
  replace (o + k + 3 - o)%nat with (k + 3)%nat by lia.
  replace (o + k + 2 - o)%nat with (k + 2)%nat by lia.
  replace (o + k + 1 - o)%nat with (k + 1)%nat by lia.
  replace (o + k + 0 - o)%nat with (k + 0)%nat by lia.
  reflexivity.
Qed.

Lemma take_written_inside n k v l :
  (k + 4 <= n)%nat -> take n (written k v l) = written k v (take n l).
Proof. intros H. unfold written. now rewrite !take_insert_lt by lia. Qed.

(** Writing an id [k] bytes into a message. *)
Lemma contents_written (h : heap) msg a k v :
  h !! arr msg = Some a -> (k + 4 <= len msg)%nat ->
  contents (<[arr msg := written (off msg + k) v a]> h) msg
  = written k v (contents h msg).
Proof.
  intros Ha Hk. rewrite contents_insert. unfold contents. rewrite Ha. simpl.
  now rewrite drop_written_shift, take_written_inside.
Qed.

Lemma length_contents (h : heap) msg :
  valid h msg -> length (contents h msg) = len msg.
Proof.
  intros (Hlc & a & Ha & Hin). unfold contents. rewrite Ha. simpl.
  rewrite length_take, length_drop. lia.
Qed.

(** The first four bytes of the window of a valid slice with room for a
    header. *)
Lemma header_bytes (h : heap) msg a :
  h !! arr msg = Some a -> (off msg + cap msg <= length a)%nat ->
  (4 <= cap msg)%nat ->
  ∃ y0 y1 y2 y3 rest, drop (off msg) a = y0 :: y1 :: y2 :: y3 :: rest.
Proof.
  intros Ha Hin Hcap.
  assert (4 <= length (drop (off msg) a))%nat as Hl by (rewrite length_drop; lia).
  destruct (drop (off msg) a) as [|y0 [|y1 [|y2 [|y3 rest]]]];
    simpl in Hl; try lia. eauto 6.
Qed.

Lemma written_same o a y0 y1 y2 y3 rest :
  drop o a = y0 :: y1 :: y2 :: y3 :: rest ->
  written o (le_value y0 y1 y2 y3) a = a.
Proof.
  intros Hd.
  assert (o + 4 <= length a)%nat as Hl.
  { apply (f_equal length) in Hd. rewrite length_drop in Hd. simpl in Hd. lia. }
  rewrite written_eq, le_bytes_value by assumption.
  rewrite <- (take_drop o a) at 3. rewrite Hd. f_equal. simpl. do 4 f_equal.
  rewrite <- (drop_drop a 4 o), Hd. reflexivity.
Qed.

(** What [getSessionID] can do on any heap at all. *)
Lemma getSessionID_cases (h : heap) msg :
  getSessionID msg h = (Failed SliceBoundsOutOfRange, h) ∨
  getSessionID msg h = (Failed InvalidMemory, h) ∨
  ∃ y0 y1 y2 y3, getSessionID msg h = (Returned (le_value y0 y1 y2 y3), h).
Proof.
  destruct (decide (4 <= cap msg)%nat) as [Hcap|Hcap];
    [|left; apply getSessionID_short; lia].
  right.
  destruct (h !! arr msg) as [a|] eqn:Ha.
  - destruct (decide (4 <= length (drop (off msg) a))%nat) as [Hl|Hl].
    + destruct (drop (off msg) a) as [|y0 [|y1 [|y2 [|y3 rest]]]] eqn:Hd;
        simpl in Hl; try lia.
      right. exists y0, y1, y2, y3. eapply getSessionID_ok; eauto.
    + left. unfold getSessionID.
      erewrite bind_returned by (apply reslice_to_ok; lia).
      unfold endianness.PutUint32, endianness.Uint32.
      apply bind_failed. unfold index. simpl. rewrite Ha. simpl.
      rewrite length_drop in Hl.
      now rewrite lookup_ge_None_2 by lia.
  - left. unfold getSessionID.
    erewrite bind_returned by (apply reslice_to_ok; lia).
    unfold endianness.Uint32. apply bind_failed. unfold index. simpl.
    now rewrite Ha.
Qed.

(** X1: writing back the id that [getSessionID] has just read changes
    nothing: on a valid message, if [getSessionID] returns [v] then
    [setSessionID] with [v] returns and leaves the heap exactly as it was. *)
Theorem setSessionID_of_getSessionID (h h' : heap) (msg : message) (v : Z) :
  valid h msg -> getSessionID msg h = (Returned v, h') ->
  h' = h ∧ setSessionID msg v h = (Returned tt, h).
Proof.
  intros (Hlc & a & Ha & Hin) Hg.
  destruct (decide (4 <= cap msg)%nat) as [Hcap|Hcap];
    [|rewrite getSessionID_short in Hg by lia; discriminate].
  destruct (header_bytes h msg a Ha Hin Hcap) as (y0 & y1 & y2 & y3 & rest & Hd).
  rewrite (getSessionID_ok h msg a _ _ _ _ rest Ha Hcap Hd) in Hg.
  injection Hg as <- <-. split; [reflexivity|].
  rewrite (setSessionID_ok h msg a) by (auto; lia).
  rewrite (written_same _ _ _ _ _ _ rest Hd).
  now rewrite insert_id.
Qed.

Lemma setSessionID_of_getSessionID_witness :
  ∃ v, getSessionID short_msg short_heap = (Returned v, short_heap) ∧
       setSessionID short_msg v short_heap = (Returned tt, short_heap).
Proof.
  exists 197121. split; [reflexivity|].
  apply (setSessionID_of_getSessionID short_heap short_heap short_msg 197121).
  - split; [simpl; lia|]. eexists. split; [reflexivity|simpl; lia].
  - reflexivity.
Defined.

(** X2: the last id written wins. On a valid message with room for a header,
    stamping [id1] and then [id2] leaves the same heap as stamping [id2]
    alone; in particular stamping the same id twice is the same as once. *)
Theorem setSessionID_last_wins (h : heap) (msg : message) (id1 id2 : Z) :
  valid h msg -> (4 <= cap msg)%nat ->
  ∃ h1 h2, setSessionID msg id1 h = (Returned tt, h1) ∧
           setSessionID msg id2 h1 = (Returned tt, h2) ∧
           setSessionID msg id2 h = (Returned tt, h2).
Proof.
  intros (Hlc & a & Ha & Hin) Hcap.
  exists (<[arr msg := written (off msg) id1 a]> h),
         (<[arr msg := written (off msg) id2 a]> h).
  split; [apply setSessionID_ok; auto; lia|].
  split; [|apply setSessionID_ok; auto; lia].
  rewrite (setSessionID_ok _ msg (written (off msg) id1 a))
    by (rewrite ?lookup_insert_eq, ?length_written; auto; lia).
  rewrite insert_insert_eq, written_written by lia. reflexivity.
Qed.

Lemma setSessionID_last_wins_witness :
  ∃ h1 h2, setSessionID frame_msg 7 frame_heap = (Returned tt, h1) ∧
           setSessionID frame_msg 9 h1 = (Returned tt, h2) ∧
           setSessionID frame_msg 9 frame_heap = (Returned tt, h2).
Proof.
  apply (setSessionID_last_wins frame_heap frame_msg 7 9).
  - split; [simpl; lia|]. eexists. split; [reflexivity|simpl; lia].
  - simpl; lia.
Defined.

(** X3: the two readers never write. Whatever the message and the heap,
    and whether they return or panic, [getSessionID] and [getData] leave
    the heap as it was, and an id that [getSessionID] returns is a uint32. *)
Theorem accessors_read_only (h : heap) (msg : message) :
  snd (getSessionID msg h) = h ∧ snd (getData msg h) = h ∧
  ∀ v, fst (getSessionID msg h) = Returned v -> is_uint32 v.
Proof.
  split_and!.
  - destruct (getSessionID_cases h msg) as [-> | [-> | (y0 & y1 & y2 & y3 & ->)]];
      reflexivity.
  - unfold getData, reslice_from, reslice. now destruct (decide _).
  - intros v.
    destruct (getSessionID_cases h msg) as [-> | [-> | (y0 & y1 & y2 & y3 & ->)]];
      simpl; try discriminate.
    intros [= <-]. apply le_value_range.
Qed.

(** X4: exactly when the accessors return. On a valid message [getData]
    returns if and only if the length is at least 4, and [getSessionID] and
    [setSessionID] return if and only if the capacity is at least 4; the
    only failure any of the three can end in is the slice-bounds panic. *)
Theorem accessors_return_iff (h : heap) (msg : message) :
  valid h msg ->
  ((∃ d, getData msg h = (Returned d, h)) ↔ (4 <= len msg)%nat) ∧
  ((∃ v, getSessionID msg h = (Returned v, h)) ↔ (4 <= cap msg)%nat) ∧
  (∀ id, (∃ h', setSessionID msg id h = (Returned tt, h')) ↔ (4 <= cap msg)%nat) ∧
  (∀ f, fst (getData msg h) = Failed f -> f = SliceBoundsOutOfRange) ∧
  (∀ f, fst (getSessionID msg h) = Failed f -> f = SliceBoundsOutOfRange) ∧
  (∀ id f, fst (setSessionID msg id h) = Failed f -> f = SliceBoundsOutOfRange).
Proof.
  intros (Hlc & a & Ha & Hin).
  assert (∀ id, (4 <= cap msg)%nat ->
                setSessionID msg id h
                = (Returned tt, <[arr msg := written (off msg) id a]> h)) as Hset
      by (intros id Hcap; apply setSessionID_ok; auto; lia).
  assert ((4 <= cap msg)%nat ->
          ∃ v, getSessionID msg h = (Returned v, h)) as Hget.
  { intros Hcap.
    destruct (header_bytes h msg a Ha Hin Hcap) as (y0 & y1 & y2 & y3 & rest & Hd).
    eexists. eapply getSessionID_ok; eauto. }
  split_and!.
  - split.
    + intros [d Hd]. destruct (decide (4 <= len msg)%nat); [assumption|].
      rewrite getData_short in Hd by lia. discriminate.
    + intros Hlen. eexists. apply getData_ok. lia.
  - split; [|exact Hget].
    intros [v Hv]. destruct (decide (4 <= cap msg)%nat); [assumption|].
    rewrite getSessionID_short in Hv by lia. discriminate.
  - intros id. split; [|eauto].
    intros [h' Hh']. destruct (decide (4 <= cap msg)%nat); [assumption|].
    rewrite setSessionID_short in Hh' by lia. discriminate.
  - intros f. destruct (decide (4 <= len msg)%nat).
    + rewrite getData_ok by lia. discriminate.
    + rewrite getData_short by lia. simpl. now intros [= <-].
  - intros f. destruct (decide (4 <= cap msg)%nat) as [Hcap|Hcap].
    + destruct (Hget Hcap) as [v ->]. discriminate.
    + rewrite getSessionID_short by lia. simpl. now intros [= <-].
  - intros id f. destruct (decide (4 <= cap msg)%nat) as [Hcap|Hcap].
    + rewrite Hset by assumption. discriminate.
    + rewrite setSessionID_short by lia. simpl. now intros [= <-].
Qed.

Lemma accessors_return_iff_witness :
  ((∃ d, getData short_msg short_heap = (Returned d, short_heap))
   ↔ (4 <= len short_msg)%nat) ∧
  ((∃ v, getSessionID short_msg short_heap = (Returned v, short_heap))
   ↔ (4 <= cap short_msg)%nat).
Proof.
  assert (valid short_heap short_msg) as Hv
      by (split; [simpl; lia|]; eexists; split; [reflexivity|simpl; lia]).
  split.
  - exact (proj1 (accessors_return_iff short_heap short_msg Hv)).
  - exact (proj1 (proj2 (accessors_return_iff short_heap short_msg Hv))).
Defined.

(** X5: a header can be stamped past the end of a message. On a valid
    message shorter than 4 bytes whose capacity is at least 4,
    [setSessionID] returns and writes all four bytes of the id into the
    backing array: the message shows the first [len] of them, the bytes of
    the array after the message are overwritten, [getSessionID] then
    returns the id, and [getData] still panics. *)
Theorem setSessionID_writes_past_length (h : heap) (msg : message) (id : Z) :
  valid h msg -> (len msg < 4)%nat -> (4 <= cap msg)%nat ->
  ∃ h', setSessionID msg id h = (Returned tt, h') ∧
        contents h' msg = take (len msg) (le_bytes id) ∧
        contents h' (Slice (arr msg) (off msg) 4 (cap msg)) = le_bytes id ∧
        getSessionID msg h' = (Returned (uint32 id), h') ∧
        getData msg h' = (Failed SliceBoundsOutOfRange, h').
Proof.
  intros (Hlc & a & Ha & Hin) Hlen Hcap.
  exists (<[arr msg := written (off msg) id a]> h).
  split; [apply setSessionID_ok; auto; lia|].
  assert (drop (off msg) (written (off msg) id a)
          = le_bytes id ++ drop (off msg + 4) a) as Hd
      by (apply drop_written; lia).
  split_and!.
  - rewrite contents_insert, Hd. now rewrite take_app_le by (simpl; lia).
  - unfold contents. simpl. rewrite lookup_insert_eq. simpl default.
    rewrite Hd. reflexivity.
  - rewrite <- le_value_bytes.
    eapply getSessionID_ok; [apply lookup_insert_eq|assumption|exact Hd].
  - apply getData_short. assumption.
Qed.

Lemma setSessionID_writes_past_length_witness :
  ∃ h', setSessionID short_msg 7 short_heap = (Returned tt, h') ∧
        contents h' short_msg = take (len short_msg) (le_bytes 7) ∧
        contents h' (Slice (arr short_msg) (off short_msg) 4 (cap short_msg))
        = le_bytes 7 ∧
        getSessionID short_msg h' = (Returned (uint32 7), h') ∧
        getData short_msg h' = (Failed SliceBoundsOutOfRange, h').
Proof.
  apply (setSessionID_writes_past_length short_heap short_msg 7).
  - split; [simpl; lia|]. eexists. split; [reflexivity|simpl; lia].
  - simpl; lia.
  - simpl; lia.
Defined.

(** X6: [getData] returns a view of the message, not a copy, and the view
    starts after the header. On a valid message of at least 8 bytes,
    stamping an id into the slice [getData] returned rewrites bytes 4 to 7
    of the message and nothing else of it, so the message's own session id
    reads as before. *)
Theorem inner_frame_keeps_outer_id (h : heap) (msg : message) (id' : Z) :
  valid h msg -> (8 <= len msg)%nat ->
  ∃ data h' v,
    getData msg h = (Returned data, h) ∧
    setSessionID data id' h = (Returned tt, h') ∧
    contents h' msg
    = take 4 (contents h msg) ++ le_bytes id' ++ drop 8 (contents h msg) ∧
    getSessionID msg h = (Returned v, h) ∧
    getSessionID msg h' = (Returned v, h') ∧
    getSessionID data h' = (Returned (uint32 id'), h').
Proof.
  intros Hv Hlen. pose proof Hv as (Hlc & a & Ha & Hin).
  set (data := Slice (arr msg) (off msg + 4) (len msg - 4) (cap msg - 4)).
  set (h' := <[arr msg := written (off msg + 4) id' a]> h).
  assert (8 <= length (drop (off msg) a))%nat as Hl by (rewrite length_drop; lia).
  destruct (drop (off msg) a)
    as [|y0 [|y1 [|y2 [|y3 [|y4 [|y5 [|y6 [|y7 rest]]]]]]]] eqn:Hd;
    simpl in Hl; try lia.
  exists data, h', (le_value y0 y1 y2 y3).
  split_and!.
  - apply getData_ok. lia.
  - apply (setSessionID_ok h data a id'); subst data; simpl; auto; lia.
  - subst h'. rewrite contents_written by (auto; lia).
    apply written_eq. rewrite length_contents by assumption. lia.
  - eapply getSessionID_ok; eauto. lia.
  - eapply getSessionID_ok; [apply lookup_insert_eq|lia|].
    rewrite drop_written_shift, Hd. reflexivity.
  - rewrite <- le_value_bytes.
    eapply getSessionID_ok; [apply lookup_insert_eq|subst data; simpl; lia|].
    subst data. simpl. apply drop_written. lia.
Qed.

Lemma inner_frame_keeps_outer_id_witness :
  ∃ data h' v,
    getData nested_msg nested_heap = (Returned data, nested_heap) ∧
    setSessionID data 9 nested_heap = (Returned tt, h') ∧
    contents h' nested_msg
    = take 4 (contents nested_heap nested_msg) ++ le_bytes 9
      ++ drop 8 (contents nested_heap nested_msg) ∧
    getSessionID nested_msg nested_heap = (Returned v, nested_heap) ∧
    getSessionID nested_msg h' = (Returned v, h') ∧
    getSessionID data h' = (Returned (uint32 9), h').
Proof.
  apply (inner_frame_keeps_outer_id nested_heap nested_msg 9).
  - split; [simpl; lia|]. eexists. split; [reflexivity|simpl; lia].
  - simpl; lia.
Defined.

Lemma take_before_written n o v a :
  (n <= o)%nat -> take n (written o v a) = take n a.
Proof. intros H. unfold written. now rewrite !take_insert_ge by lia. Qed.

(** A window that misses the four bytes written is unchanged. *)
Lemma window_written o v a o2 n :
  (o + 4 <= o2 ∨ o2 + n <= o)%nat ->
  take n (drop o2 (written o v a)) = take n (drop o2 a).
Proof.
  intros [H|H].
  - now rewrite drop_past_written.
  - rewrite !(take_drop_commute _ n o2). now rewrite take_before_written by lia.
Qed.

(** [getSessionID] looks at the first four bytes of the window only. *)
Lemma getSessionID_ext (h1 h2 : heap) msg a1 a2 :
  h1 !! arr msg = Some a1 -> h2 !! arr msg = Some a2 ->
  (off msg + cap msg <= length a1)%nat -> (off msg + cap msg <= length a2)%nat ->
  take 4 (drop (off msg) a1) = take 4 (drop (off msg) a2) ->
  fst (getSessionID msg h1) = fst (getSessionID msg h2).
Proof.
  intros H1 H2 L1 L2 He.
  destruct (decide (4 <= cap msg)%nat) as [Hcap|Hcap];
    [|now rewrite !getSessionID_short by lia].
  destruct (header_bytes h1 msg a1 H1 L1 Hcap) as (y0 & y1 & y2 & y3 & r1 & Hd1).
  destruct (header_bytes h2 msg a2 H2 L2 Hcap) as (z0 & z1 & z2 & z3 & r2 & Hd2).
  rewrite (getSessionID_ok h1 msg a1 _ _ _ _ r1 H1 Hcap Hd1).
  rewrite (getSessionID_ok h2 msg a2 _ _ _ _ r2 H2 Hcap Hd2).
  rewrite Hd1, Hd2 in He. simpl in He. now injection He as -> -> -> ->.
Qed.

(** X7: stamping one message does not disturb another. If two valid
    messages lie in different arrays, or in the same array with the second
    message's whole window clear of the first one's header, then
    [setSessionID] on the first leaves the second valid, with the same
    contents and the same answer from [getSessionID]. *)
Theorem disjoint_messages_do_not_interfere (h : heap) (m1 m2 : message) (id : Z) :
  valid h m1 -> valid h m2 -> (4 <= cap m1)%nat ->
  (arr m1 ≠ arr m2 ∨ off m1 + 4 <= off m2 ∨ off m2 + cap m2 <= off m1)%nat ->
  ∃ h', setSessionID m1 id h = (Returned tt, h') ∧
        valid h' m2 ∧
        contents h' m2 = contents h m2 ∧
        fst (getSessionID m2 h') = fst (getSessionID m2 h).
Proof.
  intros (Hlc1 & a1 & Ha1 & Hin1) (Hlc2 & a2 & Ha2 & Hin2) Hcap Hdis.
  exists (<[arr m1 := written (off m1) id a1]> h).
  split; [apply setSessionID_ok; auto; lia|].
  destruct (decide (arr m1 = arr m2)) as [Heq|Hne].
  - assert (a2 = a1) as -> by congruence.
    destruct Hdis as [Hdis|Hdis]; [contradiction|].
    assert (take (cap m2) (drop (off m2) (written (off m1) id a1))
            = take (cap m2) (drop (off m2) a1)) as Hw
        by (apply window_written; lia).
    rewrite Heq. split_and!.
    + split; [assumption|]. eexists. rewrite lookup_insert_eq.
      split; [reflexivity|]. now rewrite length_written.
    + rewrite contents_insert. unfold contents. rewrite Ha2. simpl default.
      rewrite <- (Nat.min_l (len m2) (cap m2)) by assumption.
      now rewrite <- !take_take, Hw.
    + destruct (decide (4 <= cap m2)%nat) as [Hcap2|Hcap2];
        [|now rewrite !getSessionID_short by lia].
      eapply getSessionID_ext;
        [apply lookup_insert_eq|exact Ha2|now rewrite length_written|assumption|].
      rewrite <- (Nat.min_l 4 (cap m2)) by assumption.
      now rewrite <- !take_take, Hw.
  - split_and!.
    + split; [assumption|]. exists a2. now rewrite lookup_insert_ne.
    + unfold contents. now rewrite lookup_insert_ne.
    + eapply getSessionID_ext; eauto. now rewrite lookup_insert_ne.
Qed.

Lemma disjoint_messages_do_not_interfere_witness :
  ∃ h', setSessionID nested_msg 7 nested_heap = (Returned tt, h') ∧
        valid h' (Slice 0 4 6 6) ∧
        contents h' (Slice 0 4 6 6) = contents nested_heap (Slice 0 4 6 6) ∧
        fst (getSessionID (Slice 0 4 6 6) h')
        = fst (getSessionID (Slice 0 4 6 6) nested_heap).
Proof.
  apply (disjoint_messages_do_not_interfere nested_heap nested_msg (Slice 0 4 6 6) 7).
  - split; [simpl; lia|]. eexists. split; [reflexivity|simpl; lia].
  - split; [simpl; lia|]. eexists. split; [reflexivity|simpl; lia].
  - simpl; lia.
  - right. left. simpl; lia.
Defined.

(** X8: a header names one session only. If the slices [idToBytes] returns
    for two uint32 ids hold the same bytes, the two ids are equal. *)
Theorem idToBytes_injective (id1 id2 : Z) (h1 h2 h1' h2' : heap) (b1 b2 : slice) :
  is_uint32 id1 -> is_uint32 id2 ->
  idToBytes id1 h1 = (Returned b1, h1') ->
  idToBytes id2 h2 = (Returned b2, h2') ->
  contents h1' b1 = contents h2' b2 ->
  id1 = id2.
Proof.
  intros Hu1 Hu2 H1 H2 Hc.
  rewrite idToBytes_ok in H1, H2.
  injection H1 as <- <-. injection H2 as <- <-.
  destruct (idToBytes_frame h1 id1) as (_ & Hc1 & _).
  destruct (idToBytes_frame h2 id2) as (_ & Hc2 & _).
  rewrite Hc1, Hc2, !app_nil_r in Hc.
  now apply le_bytes_inj.
Qed.

Lemma idToBytes_injective_witness : 258 = 258.
Proof.
  assert (is_uint32 258) as H by (unfold is_uint32; lia).
  exact (idToBytes_injective 258 258 ∅ frame_heap _ _ _ _ H H eq_refl eq_refl eq_refl).
Defined.

(** X9: every call of [idToBytes] allocates. Two calls in a row return
    slices on two different arrays, each still holding its own id's bytes
    after the second call, and every slice that was valid before the calls
    is still valid and shows the same bytes. *)
Theorem idToBytes_allocates_fresh (h : heap) (id1 id2 : Z) :
  ∃ b1 h1 b2 h2,
    idToBytes id1 h = (Returned b1, h1) ∧
    idToBytes id2 h1 = (Returned b2, h2) ∧
    arr b1 ≠ arr b2 ∧
    contents h2 b1 = le_bytes id1 ∧ contents h2 b2 = le_bytes id2 ∧
    ∀ s, valid h s -> valid h2 s ∧ contents h2 s = contents h s.
Proof.
  do 4 eexists. rewrite !idToBytes_ok.
  split; [reflexivity|]. split; [reflexivity|].
  set (l1 := fresh (dom h)).
  set (h1 := <[l1 := le_bytes id1]> h).
  set (l2 := fresh (dom h1)).
  assert (l1 ∉ dom h) as Hl1 by apply is_fresh.
  assert (l2 ∉ dom h1) as Hl2 by apply is_fresh.
  assert (l1 ≠ l2) as Hne.
  { intros E. apply Hl2. rewrite <- E. subst h1.
    apply elem_of_dom. rewrite lookup_insert_eq. eauto. }
  assert (l2 ∉ dom h) as Hl2'.
  { intros Hin. apply Hl2. subst h1. apply elem_of_dom.
    apply elem_of_dom in Hin. rewrite lookup_insert_ne by assumption. exact Hin. }
  simpl. split_and!.
  - exact Hne.
  - unfold contents. simpl. rewrite lookup_insert_ne by congruence.
    subst h1. now rewrite lookup_insert_eq.
  - unfold contents. simpl. now rewrite lookup_insert_eq.
  - intros s (Hlc & a & Ha & Hin).
    assert (arr s ≠ l1) as N1
        by (intros E; apply Hl1; rewrite <- E; apply elem_of_dom; eauto).
    assert (arr s ≠ l2) as N2
        by (intros E; apply Hl2'; rewrite <- E; apply elem_of_dom; eauto).
    assert (<[l2 := le_bytes id2]> h1 !! arr s = Some a) as Ha'
        by (subst h1; now rewrite !lookup_insert_ne by congruence).
    split.
    + split; [assumption|]. eauto.
    + unfold contents. now rewrite Ha', Ha.
Qed.

(** ** More on [udpAddresses] *)

Section udpAddresses_more.

Variable UDP : natty.Protocol.
Variable UDPAddr : Type.
Variable ResolveUDPAddr : string -> string -> option UDPAddr * option string.

(** X10: the result of [udpAddresses] is all or nothing. If it returns an
    error, both addresses are nil, even when the resolver handed back an
    address along with its error; if it returns no error, the protocol is
    UDP and the two addresses are the ones the resolver returned, without
    error, for the local and the remote address. *)
Theorem udpAddresses_all_or_nothing (ft : natty.FiveTuple)
        (l r : option UDPAddr) (e : option string) :
  udpAddresses UDP ResolveUDPAddr ft = (l, r, e) ->
  (e ≠ None -> l = None ∧ r = None) ∧
  (e = None ->
   natty.Proto ft = UDP ∧
   ResolveUDPAddr "udp" (natty.Local ft) = (l, None) ∧
   ResolveUDPAddr "udp" (natty.Remote ft) = (r, None)).
Proof.
  unfold udpAddresses.
  destruct (String.eqb_spec (natty.Proto ft) UDP) as [Hp|Hp]; simpl.
  - destruct (ResolveUDPAddr "udp" (natty.Local ft)) as [l0 [e0|]];
      [intros [= <- <- <-]; split; [auto|discriminate]|].
    destruct (ResolveUDPAddr "udp" (natty.Remote ft)) as [r0 [e1|]];
      intros [= <- <- <-]; split; auto; try discriminate.
    intros H; now contradiction H.
  - intros [= <- <- <-]. split; [auto|discriminate].
Qed.

(** X11: the error says which address failed but not why. Whatever error
    the resolver reported, the error [udpAddresses] returns is one of three
    texts fixed by the five-tuple alone; the two resolution errors end in
    the formatter's mark for a missing argument. *)
Theorem udpAddresses_error_text (ft : natty.FiveTuple)
        (l r : option UDPAddr) (e : string) :
  udpAddresses UDP ResolveUDPAddr ft = (l, r, Some e) ->
  (natty.Proto ft ≠ UDP ∧
   e = "FiveTuple.Proto was not UDP!: " +:+ natty.Proto ft) ∨
  (natty.Proto ft = UDP ∧
   snd (ResolveUDPAddr "udp" (natty.Local ft)) ≠ None ∧
   e = "Unable to resolve local UDP address " +:+ natty.Local ft
       +:+ ": " +:+ "%!s(MISSING)") ∨
  (natty.Proto ft = UDP ∧
   snd (ResolveUDPAddr "udp" (natty.Local ft)) = None ∧
   snd (ResolveUDPAddr "udp" (natty.Remote ft)) ≠ None ∧
   e = "Unable to resolve remote UDP address " +:+ natty.Remote ft
       +:+ ": " +:+ "%!s(MISSING)").
Proof.
  unfold udpAddresses, Errorf1, Errorf1_missing.
  destruct (String.eqb_spec (natty.Proto ft) UDP) as [Hp|Hp]; simpl negb; cbv iota.
  - destruct (ResolveUDPAddr "udp" (natty.Local ft)) as [l0 [e0|]].
    + intros [= _ _ <-]. right. left. simpl. auto.
    + destruct (ResolveUDPAddr "udp" (natty.Remote ft)) as [r0 [e1|]].
      * intros [= _ _ <-]. right. right. simpl. auto.
      * discriminate.
  - intros [= _ _ <-]. left. auto.
Qed.

End udpAddresses_more.

Lemma udpAddresses_all_or_nothing_witness :
  fst (fst (udpAddresses "udp" odd_resolver udp_tuple)) = None ∧
  snd (fst (udpAddresses "udp" odd_resolver udp_tuple)) = None.
Proof.
  apply (proj1 (udpAddresses_all_or_nothing "udp" _ odd_resolver udp_tuple
                  None None _ eq_refl)).
  discriminate.
Defined.

Lemma udpAddresses_error_text_witness :
  let e := "Unable to resolve local UDP address 10.0.0.1:5000: %!s(MISSING)" in
  (natty.Proto udp_tuple ≠ "udp" ∧
   e = "FiveTuple.Proto was not UDP!: " +:+ natty.Proto udp_tuple) ∨
  (natty.Proto udp_tuple = "udp" ∧
   snd (odd_resolver "udp" (natty.Local udp_tuple)) ≠ None ∧
   e = "Unable to resolve local UDP address " +:+ natty.Local udp_tuple
       +:+ ": " +:+ "%!s(MISSING)") ∨
  (natty.Proto udp_tuple = "udp" ∧
   snd (odd_resolver "udp" (natty.Local udp_tuple)) = None ∧
   snd (odd_resolver "udp" (natty.Remote udp_tuple)) ≠ None ∧
   e = "Unable to resolve remote UDP address " +:+ natty.Remote udp_tuple
       +:+ ": " +:+ "%!s(MISSING)").
Proof.
  exact (udpAddresses_error_text "udp" _ odd_resolver udp_tuple None None _ eq_refl).
Defined.

(** ** More on [main] and [connectToWaddell] *)


Section demo_more.

Local Arguments String.eqb : simpl never.

Variable Conn : Type.
Variable Client : Type.
Variable Dial : string -> string -> option Conn * option string.
Variable Connect : option Conn -> option Client * option string.

(** X12: with [-help] the program prints the usage and does nothing else.
    Whatever the other flags and whatever the network would answer, [main]
    returns normally, the relay is not dialed, [wc] stays nil and, even
    with [-debug], [debugOut] stays nil. *)
Theorem help_only_prints_usage (args : list Setting) :
  help (parsed args) = true ->
  ∃ w' : World Client,
    main Dial Connect args initial = (Returned tt, w') ∧
    trace w' = [PrintedUsage] ∧
    (∀ network addr, Dialed network addr ∉ trace w') ∧
    wc w' = None ∧ debugOut w' = None.
Proof.
  intros Hh. rewrite main_help by assumption.
  eexists. split; [reflexivity|]. simpl. split_and!; try reflexivity.
  intros network addr. in_trace.
Qed.




(** X16: when the handshake fails the client variable has already been
    assigned. [connectToWaddell] leaves [wc] untouched when the dial
    fails, and sets it to whatever [waddell.Connect] returned, error or
    not, when the dial succeeds; it changes neither the flags nor
    [debugOut]. *)
Theorem connectToWaddell_assigns_wc (w : World Client) (r : outcome unit)
        (w' : World Client) :
  connectToWaddell Dial Connect w = (r, w') ->
  flags w' = flags w ∧ debugOut w' = debugOut w ∧
  (∀ conn e, Dial "tcp" (waddellAddr (flags w)) = (conn, Some e) ->
             wc w' = wc w) ∧
  (∀ conn, Dial "tcp" (waddellAddr (flags w)) = (conn, None) ->
           wc w' = fst (Connect conn)).
Proof.
  unfold connectToWaddell, bind. simpl.
  destruct (Dial "tcp" (waddellAddr (flags w))) as [conn [e|]] eqn:HD; simpl.
  - intros [= <- <-]. simpl. split_and!; try reflexivity.
    intros conn' HD'. discriminate.
  - destruct (Connect conn) as [c [e|]] eqn:HC; simpl;
      intros [= <- <-]; simpl; split_and!; try reflexivity;
      try (intros conn' e' HD'; discriminate);
      intros conn' [= <-]; now rewrite HC.
Qed.

End demo_more.

Lemma help_only_prints_usage_witness :
  ∃ w' : World unit,
    main relay_down_dial relay_handshake [SetDebug true; SetHelp true] initial
    = (Returned tt, w') ∧
    trace w' = [PrintedUsage] ∧
    (∀ network addr, Dialed network addr ∉ trace w') ∧
    wc w' = None ∧ debugOut w' = None.
Proof.
  apply (help_only_prints_usage unit unit relay_down_dial relay_handshake
           [SetDebug true; SetHelp true]).
  reflexivity.
Defined.




Lemma connectToWaddell_assigns_wc_witness :
  wc (snd (connectToWaddell relay_up_dial relay_refusing_handshake initial))
  = Some tt.
Proof.
  apply (proj2 (proj2 (proj2 (connectToWaddell_assigns_wc unit unit relay_up_dial
                  relay_refusing_handshake initial _ _ eq_refl))) (Some tt)).
  reflexivity.
Defined.

(** ** The five-tuple comparison of [doTest] *)

